(** * GTIRB: a shallow embedding of the IR containers, the Java variant
      class, and the serialized forms, with the properties of the
      specification stated over them.

    Sources embedded here:
    - [com.grammatech.gtirb.variant.Variant11]  (Java)      -> [Module Variant]
    - [gtirb::CodeBlock::setSize]  (CodeBlock.hpp)           -> [Module Block]
    - ordered indices and iterator ranges of
      [boost::multi_index_container], as Module.hpp uses them -> [Module Index]
    - [gtirb::Module], its symbols and proxy blocks
      (Module.hpp)                                           -> [Module Mod]
    - bytes and little-endian integers                       -> [Module Bytes]
    - the wire envelope of section 4.8 of the specification  -> [Module Envelope]
    - the AuxData codec of section 4.7 of the specification  -> [Module AuxData]
*)

From Stdlib Require Import ZArith Lia Bool List.
From Stdlib Require OrderedTypeEx.
From stdpp Require Import base decidable option list sorting functions gmap sets
  strings.
From Stdlib Require Strings.Byte.

Local Open Scope Z_scope.

(* ===================================================================== *)
(** * Variant11 (Java)                                                    *)
(* ===================================================================== *)

Module Variant.

Section Variant11.

(** The run-time class of everything stored in a variant.  The eleven
    generic parameters [A] .. [K] are erased by the Java compiler, and the
    getters cast without a check, so one type of objects is what the
    code manipulates. *)
Variable Obj : Type.

(** A Java reference is either [null] or points to an object. *)
Inductive reference : Type :=
| null
| Ref (x : Obj).

(** The outcome of a call: a returned value or a thrown exception. *)
Inductive outcome (A : Type) : Type :=
| Returned (a : A)
| NullPointerException.
Arguments Returned {A} a.
Arguments NullPointerException {A}.

(** [java.util.Optional]: empty, or holding a (non-null) object. *)
Definition Optional : Type := option Obj.

(** [Optional.of(x)] throws on [null]. *)
Definition Optional_of (r : reference) : outcome Optional :=
  match r with
  | null => NullPointerException
  | Ref x => Returned (Some x)
  end.

Definition Optional_empty : outcome Optional := Returned None.

(** [private Object o; private int index;] *)
Record Variant11 : Type := mkVariant11 { o : reference; index : Z }.

(** The eleven protected constructors, selected by their marker token
    [Token.T0] .. [Token.T10]. *)
Definition new_T0 (obj : reference) : Variant11 := {| index := 0; o := obj |}.
Definition new_T1 (obj : reference) : Variant11 := {| index := 1; o := obj |}.
Definition new_T2 (obj : reference) : Variant11 := {| index := 2; o := obj |}.
Definition new_T3 (obj : reference) : Variant11 := {| index := 3; o := obj |}.
Definition new_T4 (obj : reference) : Variant11 := {| index := 4; o := obj |}.
Definition new_T5 (obj : reference) : Variant11 := {| index := 5; o := obj |}.
Definition new_T6 (obj : reference) : Variant11 := {| index := 6; o := obj |}.
Definition new_T7 (obj : reference) : Variant11 := {| index := 7; o := obj |}.
Definition new_T8 (obj : reference) : Variant11 := {| index := 8; o := obj |}.
Definition new_T9 (obj : reference) : Variant11 := {| index := 9; o := obj |}.
Definition new_T10 (obj : reference) : Variant11 := {| index := 10; o := obj |}.

Definition getIndex (this : Variant11) : Z := index this.

Definition get0 (this : Variant11) : outcome Optional :=
  if index this =? 0 then Optional_of (o this) else Optional_empty.
Definition get1 (this : Variant11) : outcome Optional :=
  if index this =? 1 then Optional_of (o this) else Optional_empty.
Definition get2 (this : Variant11) : outcome Optional :=
  if index this =? 2 then Optional_of (o this) else Optional_empty.
Definition get3 (this : Variant11) : outcome Optional :=
  if index this =? 3 then Optional_of (o this) else Optional_empty.
Definition get4 (this : Variant11) : outcome Optional :=
  if index this =? 4 then Optional_of (o this) else Optional_empty.
Definition get5 (this : Variant11) : outcome Optional :=
  if index this =? 5 then Optional_of (o this) else Optional_empty.
Definition get6 (this : Variant11) : outcome Optional :=
  if index this =? 6 then Optional_of (o this) else Optional_empty.
Definition get7 (this : Variant11) : outcome Optional :=
  if index this =? 7 then Optional_of (o this) else Optional_empty.
Definition get8 (this : Variant11) : outcome Optional :=
  if index this =? 8 then Optional_of (o this) else Optional_empty.
Definition get9 (this : Variant11) : outcome Optional :=
  if index this =? 9 then Optional_of (o this) else Optional_empty.
Definition get10 (this : Variant11) : outcome Optional :=
  if index this =? 10 then Optional_of (o this) else Optional_empty.

(** The setters overwrite both fields of the receiver. *)
Definition set0 (this : Variant11) (obj : reference) : Variant11 :=
  {| index := 0; o := obj |}.
Definition set1 (this : Variant11) (obj : reference) : Variant11 :=
  {| index := 1; o := obj |}.
Definition set2 (this : Variant11) (obj : reference) : Variant11 :=
  {| index := 2; o := obj |}.
Definition set3 (this : Variant11) (obj : reference) : Variant11 :=
  {| index := 3; o := obj |}.
Definition set4 (this : Variant11) (obj : reference) : Variant11 :=
  {| index := 4; o := obj |}.
Definition set5 (this : Variant11) (obj : reference) : Variant11 :=
  {| index := 5; o := obj |}.
Definition set6 (this : Variant11) (obj : reference) : Variant11 :=
  {| index := 6; o := obj |}.
Definition set7 (this : Variant11) (obj : reference) : Variant11 :=
  {| index := 7; o := obj |}.
Definition set8 (this : Variant11) (obj : reference) : Variant11 :=
  {| index := 8; o := obj |}.
Definition set9 (this : Variant11) (obj : reference) : Variant11 :=
  {| index := 9; o := obj |}.
Definition set10 (this : Variant11) (obj : reference) : Variant11 :=
  {| index := 10; o := obj |}.

(** The eleven alternatives, to speak about "the k-th field". *)
Inductive field : Type :=
| F0 | F1 | F2 | F3 | F4 | F5 | F6 | F7 | F8 | F9 | F10.

Definition field_index (k : field) : Z :=
  match k with
  | F0 => 0 | F1 => 1 | F2 => 2 | F3 => 3 | F4 => 4 | F5 => 5
  | F6 => 6 | F7 => 7 | F8 => 8 | F9 => 9 | F10 => 10
  end.

Definition construct (k : field) : reference -> Variant11 :=
  match k with
  | F0 => new_T0 | F1 => new_T1 | F2 => new_T2 | F3 => new_T3
  | F4 => new_T4 | F5 => new_T5 | F6 => new_T6 | F7 => new_T7
  | F8 => new_T8 | F9 => new_T9 | F10 => new_T10
  end.

Definition setter (k : field) : Variant11 -> reference -> Variant11 :=
  match k with
  | F0 => set0 | F1 => set1 | F2 => set2 | F3 => set3
  | F4 => set4 | F5 => set5 | F6 => set6 | F7 => set7
  | F8 => set8 | F9 => set9 | F10 => set10
  end.

Definition getter (k : field) : Variant11 -> outcome Optional :=
  match k with
  | F0 => get0 | F1 => get1 | F2 => get2 | F3 => get3
  | F4 => get4 | F5 => get5 | F6 => get6 | F7 => get7
  | F8 => get8 | F9 => get9 | F10 => get10
  end.

Definition field_eqb (j k : field) : bool := field_index j =? field_index k.

Lemma field_index_range (k : field) : 0 <= field_index k <= 10.
Proof. destruct k; cbn; lia. Qed.

Lemma field_eqb_eq (j k : field) : field_eqb j k = true <-> j = k.
Proof.
  unfold field_eqb. rewrite Z.eqb_eq.
  split; [ destruct j, k; cbn; congruence | intros ->; reflexivity ].
Qed.

(** A setter does not look at the receiver: it builds what the
    constructor of the same field builds. *)
Lemma setter_construct (k : field) (v : Variant11) (r : reference) :
  setter k v r = construct k r.
Proof. destruct k; reflexivity. Qed.

Lemma getter_construct (j k : field) (r : reference) :
  getter j (construct k r) =
    if field_eqb j k then Optional_of r else Optional_empty.
Proof. destruct j, k; reflexivity. Qed.

(** Storing the null reference makes the matching getter throw. *)
Lemma getter_null (k : field) :
  getter k (construct k null) = NullPointerException.
Proof. destruct k; reflexivity. Qed.

(** C9: a variant constructed with, or set to, its k-th field holding the
    object [x] has [getIndex() = k]; the getter of every field [j] returns
    [Optional.of(x)] when [j] is [k] and the empty [Optional] otherwise. *)
Theorem variant11_tag_is_populated_index (k : field) (x : Obj) (old : Variant11) :
  let built := construct k (Ref x) in
  let updated := setter k old (Ref x) in
  getIndex built = field_index k /\
  getIndex updated = field_index k /\
  0 <= getIndex updated <= 10 /\
  (forall j : field,
      getter j built = Returned (if field_eqb j k then Some x else None) /\
      getter j updated = Returned (if field_eqb j k then Some x else None)).
Proof.
  cbn zeta. rewrite setter_construct.
  assert (Hidx : getIndex (construct k (Ref x)) = field_index k)
    by (destruct k; reflexivity).
  repeat split; try (rewrite Hidx; auto using field_index_range);
    try apply field_index_range;
    rewrite getter_construct; destruct (field_eqb j k); reflexivity.
Qed.

End Variant11.

End Variant.


(* ===================================================================== *)
(** * Observer.hpp: the result of a requested change                      *)
(* ===================================================================== *)

(** Modelled from the spec: [enum class ChangeStatus] (Observer.hpp is not
    among the sources), the tri-state {accepted, no-change, rejected}; its
    three enumerators are the ones Module.hpp and CodeBlock.hpp name. *)
Inductive ChangeStatus : Type :=
| Accepted
| NoChange
| Rejected.

#[global] Instance ChangeStatus_eq_dec : EqDecision ChangeStatus.
Proof. solve_decision. Defined.

(* ===================================================================== *)
(** * CodeBlock::setSize (CodeBlock.hpp)                                  *)
(* ===================================================================== *)

Module Block.

Definition ByteIntervalPtr := nat.
Definition ObserverPtr := nat.

Inductive DecodeMode : Type :=
| Default
| Thumb.

(** The data members of [CodeBlock]; a null pointer is [None].  [Size] holds
    a [uint64_t]. *)
Record CodeBlock : Type := mkCodeBlock {
  Parent : option ByteIntervalPtr;
  Observer : option ObserverPtr;
  Size : Z;
  DMode : DecodeMode
}.

Definition getSize (this : CodeBlock) : Z := Size this.
Definition getByteInterval (this : CodeBlock) : option ByteIntervalPtr :=
  Parent this.

Definition with_Size (this : CodeBlock) (S : Z) : CodeBlock :=
  {| Parent := Parent this; Observer := Observer this;
     Size := S; DMode := DMode this |}.

(** [void setParent(ByteInterval* BI, CodeBlockObserver* O)] *)
Definition setParent (this : CodeBlock) (BI : option ByteIntervalPtr)
    (Obs : option ObserverPtr) : CodeBlock :=
  {| Parent := BI; Observer := Obs; Size := Size this; DMode := DMode this |}.

(** What a run of [setSize] does to the outside: the calls it makes on the
    observer, each with the block as it is at the time of the call. *)
Inductive event : Type :=
| SizeChange (Obs : ObserverPtr) (B : CodeBlock) (OldSize NewSize : Z).

Section SetSize.

(** Everything the observer chain owns (the indices of the byte interval,
    of the section, of the module). *)
Variable World : Type.

(** [virtual ChangeStatus CodeBlockObserver::sizeChange(CodeBlock*, uint64_t
    OldSize, uint64_t NewSize)]: its implementations are not among the
    sources; it reads the block and updates the indices. *)
Variable sizeChange :
  ObserverPtr -> CodeBlock -> Z -> Z -> World -> ChangeStatus * World.

(** Whether the translation unit is compiled with [NDEBUG], which turns
    [assert] into nothing. *)
Variable NDEBUG : bool.

(** [assert(c)]: the run goes on, or is aborted. *)
Definition assert (c : bool) : bool := NDEBUG || c.

(** [void CodeBlock::setSize(uint64_t S)].  [None] is the abort of a failed
    assertion; otherwise the block, the world and the observer calls. *)
Definition setSize (this : CodeBlock) (S : Z) (w : World)
    : option (CodeBlock * World * list event) :=
  match Observer this with
  | Some Obs =>
      (* std::swap(Size, S) *)
      let this' := with_Size this S in
      let S' := Size this in
      let '(Status, w') := sizeChange Obs this' S' (Size this') w in
      if assert (negb (bool_decide (Status = Rejected)))
      then Some (this', w', [SizeChange Obs this' S' (Size this')])
      else None
  | None => Some (with_Size this S, w, [])
  end.

(** [setSize] returns unless assertions are on and the observer rejects. *)
Lemma setSize_returns (this : CodeBlock) (S : Z) (w : World) :
  setSize this S w = None <->
  NDEBUG = false /\
  exists Obs, Observer this = Some Obs /\
            fst (sizeChange Obs (with_Size this S) (Size this) S w) = Rejected.
Proof.
  unfold setSize, assert. destruct (Observer this) as [Obs|].
  - cbn. destruct (sizeChange Obs (with_Size this S) (Size this) S w)
      as [Status w'] eqn:E. cbn.
    destruct NDEBUG; cbn.
    + split; [discriminate | intros [? _]; discriminate].
    + case_bool_decide as Hs; cbn.
      * split; [intros _; split; [reflexivity|]; exists Obs; rewrite E; auto
               | reflexivity].
      * split; [discriminate|]. intros (_ & Obs' & HO & HR).
        injection HO as <-. rewrite E in HR. cbn in HR. contradiction.
  - split; [discriminate|]. intros (_ & Obs & HO & _). discriminate.
Qed.

(** C8: whenever [setSize(S)] returns, [getSize()] is [S], with or without
    an observer; without an observer nobody is notified; with one it is
    notified exactly once, with [(old size, S)], on the block that already
    holds [S]; and the only run that does not return is the failed assertion
    on a rejecting observer. *)
Theorem setSize_commits_then_notifies (this : CodeBlock) (S : Z) (w : World) :
  match setSize this S w with
  | Some (this', w', calls) =>
      getSize this' = S /\
      Parent this' = Parent this /\
      match Observer this with
      | None => calls = [] /\ w' = w
      | Some Obs =>
          exists B, calls = [SizeChange Obs B (getSize this) S] /\
                    getSize B = S /\ B = this' /\
                    w' = snd (sizeChange Obs B (getSize this) S w)
      end
  | None =>
      NDEBUG = false /\
      exists Obs, Observer this = Some Obs /\
                fst (sizeChange Obs (with_Size this S) (Size this) S w) = Rejected
  end.
Proof.
  destruct (setSize this S w) as [[[this' w'] calls]|] eqn:E.
  - unfold setSize in E. destruct (Observer this) as [Obs|] eqn:HO.
    + cbn in E.
      destruct (sizeChange Obs (with_Size this S) (Size this) S w)
        as [Status w1] eqn:Hs.
      destruct (assert _); [|discriminate].
      injection E as <- <- <-. repeat split.
      exists (with_Size this S). unfold getSize. cbn [with_Size Size].
      rewrite Hs. repeat split.
    + injection E as <- <- <-. repeat split.
  - apply setSize_returns in E. exact E.
Qed.

End SetSize.

End Block.


(* ===================================================================== *)
(** * Ordered indices and iterator ranges (boost::multi_index)            *)
(* ===================================================================== *)

Module Index.

(** The comparison of an ordered index, [std::less<K>]: a strict total
    order on the keys. *)
Class KeyOrder (K : Type) : Type := {
  key_lt : K -> K -> bool;
  key_lt_irrefl : forall a, key_lt a a = false;
  key_lt_trans : forall a b c,
      key_lt a b = true -> key_lt b c = true -> key_lt a c = true;
  key_lt_total : forall a b,
      key_lt a b = false -> key_lt b a = false -> a = b
}.

(** [std::less<std::string>]: lexicographic on the characters. *)
Lemma string_ltb_lt (a b : string) :
  Stdlib.Strings.String.ltb a b = true <-> OrderedTypeEx.String_as_OT.lt a b.
Proof.
  unfold Stdlib.Strings.String.ltb. rewrite <- OrderedTypeEx.String_as_OT.cmp_lt.
  unfold OrderedTypeEx.String_as_OT.cmp.
  destruct (Stdlib.Strings.String.compare a b); split; congruence.
Qed.

#[global, refine] Instance string_KeyOrder : KeyOrder string :=
  {| key_lt := Stdlib.Strings.String.ltb |}.
Proof.
  - intros a. unfold Stdlib.Strings.String.ltb.
    replace (Stdlib.Strings.String.compare a a) with Eq; [reflexivity|].
    symmetry. apply OrderedTypeEx.String_as_OT.cmp_eq. reflexivity.
  - intros a b c. rewrite !string_ltb_lt.
    apply OrderedTypeEx.String_as_OT.lt_trans.
  - intros a b. unfold Stdlib.Strings.String.ltb. intros Hab Hba.
    rewrite Stdlib.Strings.String.compare_antisym in Hba.
    destruct (Stdlib.Strings.String.compare a b) eqn:E; cbn in *; try discriminate.
    apply Stdlib.Strings.String.compare_eq_iff. exact E.
Defined.

(** [std::less<std::optional<Addr>>]: the empty optional is below every
    engaged one; engaged ones compare by their address. *)
Definition optional_lt (a b : option Z) : bool :=
  match a, b with
  | _, None => false
  | None, Some _ => true
  | Some x, Some y => x <? y
  end.

#[global, refine] Instance optional_KeyOrder : KeyOrder (option Z) :=
  {| key_lt := optional_lt |}.
Proof.
  - intros [a|]; cbn; [apply Z.ltb_irrefl | reflexivity].
  - intros [a|] [b|] [c|]; cbn; try congruence. rewrite !Z.ltb_lt. lia.
  - intros [a|] [b|]; cbn; try congruence. rewrite !Z.ltb_ge.
    intros. f_equal. lia.
Defined.

(** A [boost::iterator_range] over an index: two positions in the
    sequence of the index, [length] being [end()]. *)
Record iterator_range : Type := make_iterator_range {
  range_begin : nat;
  range_end : nat
}.

(** [iterator_range::empty()] *)
Definition empty (r : iterator_range) : bool :=
  bool_decide (range_begin r = range_end r).

Section Ordered.

Context {K : Type} `{KeyOrder K} {A : Type}.
Variable key : A -> K.

(** The number of leading elements that satisfy [p]. *)
Fixpoint prefix_len (p : A -> bool) (l : list A) : nat :=
  match l with
  | [] => 0%nat
  | x :: l' => if p x then S (prefix_len p l') else 0%nat
  end.

(** [lower_bound(k)]: the first position whose key is not less than [k]. *)
Definition lower_bound (l : list A) (k : K) : nat :=
  prefix_len (fun x => key_lt (key x) k) l.

(** [upper_bound(k)]: the first position whose key is greater than [k]. *)
Definition upper_bound (l : list A) (k : K) : nat :=
  prefix_len (fun x => negb (key_lt k (key x))) l.

(** [equal_range(k)] *)
Definition equal_range (l : list A) (k : K) : nat * nat :=
  (lower_bound l k, upper_bound l k).

(** Insertion in an [ordered_non_unique] index: after the elements whose
    key is not greater. *)
Fixpoint ordered_insert (x : A) (l : list A) : list A :=
  match l with
  | [] => [x]
  | y :: l' =>
      if key_lt (key x) (key y) then x :: y :: l'
      else y :: ordered_insert x l'
  end.

(** The sequence of an ordered index is non-decreasing in the key. *)
Definition sorted (l : list A) : Prop :=
  StronglySorted (fun a b => key_lt (key b) (key a) = false) l.

(** Running an iterator from [it] to [last], [rest] being what the index
    holds from [it] on: [for (; it != last; ++it) yield *it].  Stepping
    beyond [end()] is undefined: [None]. *)
Fixpoint walk (rest : list A) (it last : nat) : option (list A) :=
  if (it =? last)%nat then Some []
  else match rest with
       | [] => None
       | x :: rest' => cons x <$> walk rest' (S it) last
       end.

(** The elements a range denotes over the sequence [l] of its index. *)
Definition elements_of (l : list A) (r : iterator_range) : option (list A) :=
  walk (drop (range_begin r) l) (range_begin r) (range_end r).

(** ** Facts about ordered sequences *)

Lemma key_le_lt_trans (a b k : K) :
  key_lt b a = false -> key_lt b k = true -> key_lt a k = true.
Proof.
  intros Hab Hbk. destruct (key_lt a b) eqn:E.
  - eapply key_lt_trans; eassumption.
  - rewrite (key_lt_total a b E Hab). exact Hbk.
Qed.

Lemma key_lt_le_trans (a b k : K) :
  key_lt b a = false -> key_lt k b = false -> key_lt k a = false.
Proof.
  intros Hab Hkb. destruct (key_lt k a) eqn:E; [|reflexivity].
  destruct (key_lt a b) eqn:E'.
  - rewrite (key_lt_trans k a b E E') in Hkb. discriminate.
  - rewrite (key_lt_total a b E' Hab) in E. congruence.
Qed.

Lemma key_lt_asym (a b : K) : key_lt a b = true -> key_lt b a = false.
Proof.
  intros Hab. destruct (key_lt b a) eqn:E; [|reflexivity].
  rewrite <- (key_lt_irrefl a). symmetry. eapply key_lt_trans; eassumption.
Qed.

Lemma sorted_cons (x : A) (l : list A) :
  sorted (x :: l) <->
  Forall (fun y => key_lt (key y) (key x) = false) l /\ sorted l.
Proof. apply StronglySorted_cons. Qed.

Lemma prefix_len_le (p : A -> bool) (l : list A) :
  (prefix_len p l <= length l)%nat.
Proof. induction l as [|x l IH]; cbn; [lia|]. destruct (p x); cbn; lia. Qed.

Lemma prefix_len_mono (p q : A -> bool) (l : list A) :
  (forall x, p x = true -> q x = true) ->
  (prefix_len p l <= prefix_len q l)%nat.
Proof.
  intros Hpq. induction l as [|x l IH]; cbn; [lia|].
  destruct (p x) eqn:E; [rewrite (Hpq x E)|]; lia.
Qed.

(** A predicate is closed downwards when it passes from an element to the
    ones that may stand before it. *)
Definition down_closed (p : A -> bool) : Prop :=
  forall x y, key_lt (key y) (key x) = false -> p y = true -> p x = true.

Lemma down_closed_lt (k : K) : down_closed (fun x => key_lt (key x) k).
Proof. intros x y. apply key_le_lt_trans. Qed.

Lemma down_closed_not_gt (k : K) :
  down_closed (fun x => negb (key_lt k (key x))).
Proof.
  intros x y Hxy. rewrite !negb_true_iff. apply key_lt_le_trans. exact Hxy.
Qed.

Lemma sorted_none_after (p : A -> bool) (x : A) (l : list A) :
  down_closed p -> sorted (x :: l) -> p x = false ->
  Forall (fun y => p y = false) l.
Proof.
  intros Hp Hs Hx. apply sorted_cons in Hs as [Hall _].
  eapply Forall_impl; [exact Hall|]. cbn. intros y Hy.
  destruct (p y) eqn:E; [|reflexivity].
  rewrite (Hp x y Hy E) in Hx. discriminate.
Qed.

Lemma filter_none (P : A -> Prop) `{!forall x, Decision (P x)} (l : list A) :
  Forall (fun y => ~ P y) l -> filter P l = [].
Proof.
  induction 1 as [|y l Hy _ IH]; [reflexivity|].
  rewrite filter_cons_False by exact Hy. exact IH.
Qed.

Lemma filter_ext_Forall (P Q : A -> Prop) `{!forall x, Decision (P x)}
    `{!forall x, Decision (Q x)} (l : list A) :
  Forall (fun y => P y <-> Q y) l -> filter P l = filter Q l.
Proof.
  induction 1 as [|y l Hy _ IH]; [reflexivity|].
  rewrite !filter_cons. rewrite IH.
  destruct (decide (P y)), (decide (Q y)); tauto.
Qed.

(** On a sorted sequence the leading run of a downward closed predicate is
    all of what satisfies it. *)
Lemma sorted_take_prefix (p : A -> bool) (l : list A) :
  down_closed p -> sorted l ->
  take (prefix_len p l) l = filter (fun x => p x = true) l.
Proof.
  intros Hp. induction l as [|x l IH]; intros Hs; [reflexivity|].
  cbn [prefix_len]. destruct (p x) eqn:E.
  - rewrite filter_cons_True by exact E. cbn. f_equal.
    apply IH. apply sorted_cons in Hs. tauto.
  - rewrite filter_cons_False by congruence. cbn.
    symmetry. apply filter_none.
    eapply Forall_impl; [exact (sorted_none_after p x l Hp Hs E)|].
    cbn. congruence.
Qed.

(** The slice between the cuts of two nested downward closed predicates. *)
Lemma sorted_slice (p q : A -> bool) (l : list A) :
  down_closed p -> down_closed q ->
  (forall x, p x = true -> q x = true) -> sorted l ->
  take (prefix_len q l - prefix_len p l) (drop (prefix_len p l) l) =
  filter (fun x => q x = true /\ p x = false) l.
Proof.
  intros Hp Hq Hpq. induction l as [|x l IH]; intros Hs; [reflexivity|].
  cbn [prefix_len]. destruct (p x) eqn:E.
  - rewrite (Hpq x E). rewrite filter_cons_False by (intros [_ ?]; congruence).
    cbn. apply IH. apply sorted_cons in Hs. tauto.
  - cbn [drop]. rewrite Nat.sub_0_r.
    change (if q x then S (prefix_len q l) else 0%nat)
      with (prefix_len q (x :: l)).
    rewrite (sorted_take_prefix q (x :: l) Hq Hs).
    apply filter_ext_Forall.
    assert (Hall : Forall (fun y => p y = false) (x :: l))
      by (constructor; [exact E | exact (sorted_none_after p x l Hp Hs E)]).
    eapply Forall_impl; [exact Hall|]. cbn. tauto.
Qed.

Lemma walk_forward (rest : list A) (it n : nat) :
  (n <= length rest)%nat -> walk rest it (it + n) = Some (take n rest).
Proof.
  revert it n. induction rest as [|x rest IH]; intros it n Hn.
  - cbn in Hn. assert (n = 0%nat) as -> by lia. cbn.
    rewrite Nat.add_0_r, Nat.eqb_refl. reflexivity.
  - destruct n as [|n]; cbn.
    + rewrite Nat.add_0_r, Nat.eqb_refl. reflexivity.
    + destruct (Nat.eqb_spec it (it + S n)) as [?|_]; [lia|].
      replace (it + S n)%nat with (S it + n)%nat by lia.
      rewrite IH by (cbn in Hn; lia). reflexivity.
Qed.

Lemma walk_backward (rest : list A) (it last : nat) :
  (last < it)%nat -> walk rest it last = None.
Proof.
  revert it. induction rest as [|x rest IH]; intros it Hlt; cbn;
    destruct (Nat.eqb_spec it last) as [?|_]; try lia; [reflexivity|].
  rewrite IH by lia. reflexivity.
Qed.

(** A well-formed range denotes the slice between its two positions. *)
Lemma elements_of_slice (l : list A) (b e : nat) :
  (b <= e <= length l)%nat ->
  elements_of l (make_iterator_range b e) = Some (take (e - b) (drop b l)).
Proof.
  intros Hbe. unfold elements_of. cbn.
  replace e with (b + (e - b))%nat at 1 by lia.
  apply walk_forward. rewrite length_drop. lia.
Qed.

(** A range whose end is before its begin denotes nothing: running it
    leaves the sequence. *)
Lemma elements_of_crossed (l : list A) (b e : nat) :
  (e < b)%nat -> elements_of l (make_iterator_range b e) = None.
Proof. intros Hlt. unfold elements_of. cbn. apply walk_backward. exact Hlt. Qed.

Lemma ordered_insert_perm (x : A) (l : list A) :
  ordered_insert x l ≡ₚ x :: l.
Proof.
  induction l as [|y l IH]; cbn; [reflexivity|].
  destruct (key_lt (key x) (key y)); [reflexivity|].
  rewrite IH. apply Permutation_swap.
Qed.

Lemma ordered_insert_sorted (x : A) (l : list A) :
  sorted l -> sorted (ordered_insert x l).
Proof.
  induction l as [|y l IH]; intros Hs; cbn.
  - apply sorted_cons. split; constructor.
  - destruct (key_lt (key x) (key y)) eqn:E.
    + apply sorted_cons. split; [|exact Hs].
      apply sorted_cons in Hs as [Hall _].
      constructor; [apply key_lt_asym; exact E|].
      eapply Forall_impl; [exact Hall|]. cbn. intros z Hz.
      destruct (key_lt (key z) (key x)) eqn:E'; [|reflexivity].
      rewrite (key_lt_trans _ _ _ E' E) in Hz. discriminate.
    + apply sorted_cons in Hs as [Hall Hs]. apply sorted_cons. split.
      * rewrite ordered_insert_perm. constructor; assumption.
      * apply IH. exact Hs.
Qed.

Lemma sorted_filter (P : A -> Prop) `{!forall x, Decision (P x)} (l : list A) :
  sorted l -> sorted (filter P l).
Proof.
  induction l as [|x l IH]; intros Hs; [constructor|].
  apply sorted_cons in Hs as [Hall Hs].
  destruct (decide (P x)) as [HP|HP].
  - rewrite filter_cons_True by exact HP. apply sorted_cons. split; [|auto].
    apply Forall_forall. intros y Hy. apply list_elem_of_filter in Hy as [_ Hy].
    rewrite Forall_forall in Hall. auto.
  - rewrite filter_cons_False by exact HP. auto.
Qed.

End Ordered.

End Index.

(* ===================================================================== *)
(** * gtirb::Module: symbols and proxy blocks (Module.hpp)                *)
(* ===================================================================== *)

Module Mod.

Import Index.

(** [gtirb::Addr] wraps a [uint64_t].  The symbol queries only compare
    addresses; where one is computed, it wraps around ([Symbols.Addr_add]). *)
Abbreviation Addr := Z (only parsing).

(** Nodes live in the [Context] arena and are handled through pointers. *)
Abbreviation NodePtr := nat (only parsing).
Abbreviation SymbolPtr := nat (only parsing).
Abbreviation ModulePtr := nat (only parsing).
Abbreviation ProxyBlockPtr := nat (only parsing).

(** Modelled from the spec: the class [Symbol] (Symbol.hpp is not among the
    sources).  A symbol holds a name and an optional value, an address or
    a referent node.  Module.hpp reaches it through [getName()],
    [getAddress()], the referent handed to [visit], [getModule()] and
    [setParent(Module * M, SymbolObserver * O)]; the fields hold what these
    return. *)
Record Symbol : Type := mkSymbol {
  Name : string;
  Address : option Addr;
  Referent : option NodePtr;
  SymParent : option ModulePtr;
  SymObserver : option ModulePtr
}.

Definition getName (S : Symbol) : string := Name S.
Definition getAddress (S : Symbol) : option Addr := Address S.
Definition getModule (S : Symbol) : option ModulePtr := SymParent S.

(** [static const Node* get_symbol_referent(const Symbol& S)] *)
Definition get_symbol_referent (S : Symbol) : option NodePtr := Referent S.

(** [S->setParent(M, O)]; the observer of a module's symbols is the
    [SymObs] that module owns, named here by the module. *)
Definition Symbol_setParent (S : Symbol) (M Obs : option ModulePtr) : Symbol :=
  {| Name := Name S; Address := Address S; Referent := Referent S;
     SymParent := M; SymObserver := Obs |}.

(** Modelled from the spec: [ProxyBlock] (ProxyBlock.hpp is not among the
    sources); only its parent back-reference matters here. *)
Record ProxyBlock : Type := mkProxyBlock {
  PBParent : option ModulePtr
}.

(** [using ProxyBlockSet = std::unordered_set<ProxyBlock*>] *)
Abbreviation ProxyBlockSet := (gset nat) (only parsing).

(** [using SymbolSet = boost::multi_index_container<Symbol*, ...>]: two
    ordered non-unique indices, by [getAddress()] and by [getName()], the
    hashed unique index on the pointer and the hashed non-unique index on
    the referent.  An ordered index is its sequence; a hashed index is the
    set of what it holds. *)
Record SymbolSet : Type := mkSymbolSet {
  by_address : list SymbolPtr;
  by_name : list SymbolPtr;
  by_pointer : gset SymbolPtr;
  by_referent : gset SymbolPtr
}.

(** The data members of [Module] that hold symbols and proxy blocks. *)
Record Module_ : Type := mkModule {
  ProxyBlocks : ProxyBlockSet;
  Symbols : SymbolSet
}.

(** The arena: what every pointer points to. *)
Record Context : Type := mkContext {
  symbol_at : SymbolPtr -> Symbol;
  module_at : ModulePtr -> Module_;
  proxy_block_at : ProxyBlockPtr -> ProxyBlock
}.

(** The key extractors of the two ordered indices. *)
Definition address_key (syms : SymbolPtr -> Symbol) (p : SymbolPtr)
  : option Addr := getAddress (syms p).
Definition name_key (syms : SymbolPtr -> Symbol) (p : SymbolPtr)
  : string := getName (syms p).

Definition empty_SymbolSet : SymbolSet :=
  {| by_address := []; by_name := []; by_pointer := ∅; by_referent := ∅ |}.

(** [Symbols.emplace(S)]: refused by the unique index when [S] is already
    held, else [S] enters every index. *)
Definition emplace (syms : SymbolPtr -> Symbol) (S : SymbolPtr)
    (c : SymbolSet) : SymbolSet :=
  if decide (S ∈ by_pointer c) then c
  else {| by_address := ordered_insert (address_key syms) S (by_address c);
          by_name := ordered_insert (name_key syms) S (by_name c);
          by_pointer := {[S]} ∪ by_pointer c;
          by_referent := {[S]} ∪ by_referent c |}.

(** [Index.erase(Iter)]: the element leaves every index. *)
Definition erase (S : SymbolPtr) (c : SymbolSet) : SymbolSet :=
  {| by_address := filter (fun p => p <> S) (by_address c);
     by_name := filter (fun p => p <> S) (by_name c);
     by_pointer := by_pointer c ∖ {[S]};
     by_referent := by_referent c ∖ {[S]} |}.

Definition with_Symbols (M : Module_) (c : SymbolSet) : Module_ :=
  {| ProxyBlocks := ProxyBlocks M; Symbols := c |}.
Definition with_ProxyBlocks (M : Module_) (s : ProxyBlockSet) : Module_ :=
  {| ProxyBlocks := s; Symbols := Symbols M |}.

(** [bool Module::removeSymbol(Symbol * S)] *)
Definition removeSymbol (this : ModulePtr) (S : SymbolPtr) (C : Context)
    : bool * Context :=
  let M := module_at C this in
  if decide (S ∈ by_pointer (Symbols M)) then
    (true,
     {| symbol_at :=
          <[S := Symbol_setParent (symbol_at C S) None None]> (symbol_at C);
        module_at :=
          <[this := with_Symbols M (erase S (Symbols M))]> (module_at C);
        proxy_block_at := proxy_block_at C |})
  else (false, C).

(** [Symbol * Module::addSymbol(Symbol * S)] *)
Definition addSymbol (this : ModulePtr) (S : SymbolPtr) (C : Context)
    : SymbolPtr * Context :=
  let C1 := match getModule (symbol_at C S) with
            | Some M' => snd (removeSymbol M' S C)
            | None => C
            end in
  let M := module_at C1 this in
  let C2 := {| symbol_at := symbol_at C1;
               module_at :=
                 <[this := with_Symbols M
                             (emplace (symbol_at C1) S (Symbols M))]>
                   (module_at C1);
               proxy_block_at := proxy_block_at C1 |} in
  (S,
   {| symbol_at :=
        <[S := Symbol_setParent (symbol_at C2 S) (Some this) (Some this)]>
          (symbol_at C2);
      module_at := module_at C2;
      proxy_block_at := proxy_block_at C2 |}).

(** Modelled from the spec: [ChangeStatus
    Module::removeProxyBlock(ProxyBlock * B)], whose body is not among the sources.  Its declaration
    documents: [Accepted] when the operation succeeded, [NoChange] when the
    node to remove is not part of this module to begin with. *)
Definition removeProxyBlock (this : ModulePtr) (B : ProxyBlockPtr)
    (C : Context) : ChangeStatus * Context :=
  let M := module_at C this in
  if decide (B ∈ ProxyBlocks M) then
    (Accepted,
     {| symbol_at := symbol_at C;
        module_at :=
          <[this := with_ProxyBlocks M (ProxyBlocks M ∖ {[B]})]> (module_at C);
        proxy_block_at :=
          <[B := {| PBParent := None |}]> (proxy_block_at C) |})
  else (NoChange, C).

(** Modelled from the spec: [ChangeStatus
    Module::addProxyBlock(ProxyBlock * PB)], whose body is not among the sources.  Its declaration
    documents: [Accepted] when the insertion took place, [NoChange] when
    this module already contained the block. *)
Definition addProxyBlock (this : ModulePtr) (B : ProxyBlockPtr)
    (C : Context) : ChangeStatus * Context :=
  if decide (B ∈ ProxyBlocks (module_at C this)) then (NoChange, C)
  else
    let C1 := match PBParent (proxy_block_at C B) with
              | Some M' => snd (removeProxyBlock M' B C)
              | None => C
              end in
    let M := module_at C1 this in
    (Accepted,
     {| symbol_at := symbol_at C1;
        module_at :=
          <[this := with_ProxyBlocks M ({[B]} ∪ ProxyBlocks M)]> (module_at C1);
        proxy_block_at :=
          <[B := {| PBParent := Some this |}]> (proxy_block_at C1) |}).

(** The four [findSymbols] overloads; each returns a range over one of the
    indices of [Symbols]. *)

(** [symbol_name_range findSymbols(const std::string& N)] *)
Definition findSymbols_name (C : Context) (this : ModulePtr) (N : string)
    : iterator_range :=
  let Found :=
    equal_range (name_key (symbol_at C))
      (by_name (Symbols (module_at C this))) N in
  make_iterator_range (fst Found) (snd Found).

(** [symbol_addr_range findSymbols(Addr X)] *)
Definition findSymbols_addr (C : Context) (this : ModulePtr) (X : Addr)
    : iterator_range :=
  let Found :=
    equal_range (address_key (symbol_at C))
      (by_address (Symbols (module_at C this))) (Some X) in
  make_iterator_range (fst Found) (snd Found).

(** [symbol_addr_range findSymbols(Addr Lower, Addr Upper)] *)
Definition findSymbols_range (C : Context) (this : ModulePtr)
    (Lower Upper : Addr) : iterator_range :=
  let Index := by_address (Symbols (module_at C this)) in
  make_iterator_range
    (lower_bound (address_key (symbol_at C)) Index (Some Lower))
    (lower_bound (address_key (symbol_at C)) Index (Some Upper)).

(** [symbol_ref_range findSymbols(const Node& Referent)]: the bucket of the
    hashed index, as the set of what it holds. *)
Definition findSymbols_referent (C : Context) (this : ModulePtr)
    (Referent : NodePtr) : gset SymbolPtr :=
  filter (fun p => get_symbol_referent (symbol_at C p) = Some Referent)
         (by_referent (Symbols (module_at C this))).

(** [symbols()]: the symbols of a module, through the pointer index. *)
Definition symbols (C : Context) (this : ModulePtr) : list SymbolPtr :=
  elements (by_pointer (Symbols (module_at C this))).

(** What a range over the by-name or by-address index yields. *)
Definition name_range_elements (C : Context) (this : ModulePtr)
    (r : iterator_range) : option (list SymbolPtr) :=
  elements_of (by_name (Symbols (module_at C this))) r.
Definition addr_range_elements (C : Context) (this : ModulePtr)
    (r : iterator_range) : option (list SymbolPtr) :=
  elements_of (by_address (Symbols (module_at C this))) r.

(** Whether an address lies in the half-open interval [[Low, High)]. *)
Definition in_interval (Low High : Addr) (a : option Addr) : bool :=
  match a with
  | Some x => (Low <=? x) && (x <? High)
  | None => false
  end.

(** ** Removing a child, whatever its kind *)

Inductive child : Type :=
| ChildSymbol (S : SymbolPtr)
| ChildProxyBlock (B : ProxyBlockPtr).

(** What a remover hands back: the [ChangeStatus] of [removeProxyBlock], or
    the [bool] of [removeSymbol]. *)
Inductive remove_result : Type :=
| Status (s : ChangeStatus)
| Flag (b : bool).

Definition removeChild (this : ModulePtr) (c : child) (C : Context)
    : remove_result * Context :=
  match c with
  | ChildSymbol Sym =>
      let r := removeSymbol this Sym C in (Flag (fst r), snd r)
  | ChildProxyBlock B =>
      let r := removeProxyBlock this B C in (Status (fst r), snd r)
  end.

Definition contains (C : Context) (this : ModulePtr) (c : child) : Prop :=
  match c with
  | ChildSymbol Sym => Sym ∈ by_pointer (Symbols (module_at C this))
  | ChildProxyBlock B => B ∈ ProxyBlocks (module_at C this)
  end.

(** ** Well-formed containers and consistent back-references *)

(** The invariant of the multi-index container: every index holds the
    same elements, once each, and the ordered ones are in key order. *)
Record SymbolSet_wf (syms : SymbolPtr -> Symbol) (c : SymbolSet) : Prop := {
  wf_by_address_sorted : sorted (address_key syms) (by_address c);
  wf_by_name_sorted : sorted (name_key syms) (by_name c);
  wf_by_address_NoDup : NoDup (by_address c);
  wf_by_name_NoDup : NoDup (by_name c);
  wf_by_address_elems : forall p, p ∈ by_address c <-> p ∈ by_pointer c;
  wf_by_name_elems : forall p, p ∈ by_name c <-> p ∈ by_pointer c;
  wf_by_referent_elems : by_referent c = by_pointer c
}.

(** A symbol's parent pointer names the module that lists it. *)
Definition parents_consistent (C : Context) : Prop :=
  forall (S : SymbolPtr) (M : ModulePtr),
    getModule (symbol_at C S) = Some M <->
    S ∈ by_pointer (Symbols (module_at C M)).

Record Context_wf (C : Context) : Prop := {
  wf_symbol_sets :
    forall M, SymbolSet_wf (symbol_at C) (Symbols (module_at C M));
  wf_parents : parents_consistent C
}.

(** ** Runs of the mutators from a fresh arena *)

(** A fresh arena: the symbols as created and not yet added anywhere, and
    empty modules. *)
Definition fresh (named : SymbolPtr -> string * option Addr * option NodePtr)
    : Context :=
  {| symbol_at := fun p =>
       {| Name := fst (fst (named p)); Address := snd (fst (named p));
          Referent := snd (named p);
          SymParent := None; SymObserver := None |};
     module_at := fun _ =>
       {| ProxyBlocks := ∅; Symbols := empty_SymbolSet |};
     proxy_block_at := fun _ => {| PBParent := None |} |}.

Inductive operation : Type :=
| AddSymbol (M : ModulePtr) (S : SymbolPtr)
| RemoveSymbol (M : ModulePtr) (S : SymbolPtr)
| AddProxyBlock (M : ModulePtr) (B : ProxyBlockPtr)
| RemoveProxyBlock (M : ModulePtr) (B : ProxyBlockPtr).

Definition step (C : Context) (op : operation) : Context :=
  match op with
  | AddSymbol M Sym => snd (addSymbol M Sym C)
  | RemoveSymbol M Sym => snd (removeSymbol M Sym C)
  | AddProxyBlock M B => snd (addProxyBlock M B C)
  | RemoveProxyBlock M B => snd (removeProxyBlock M B C)
  end.

Definition run (ops : list operation) (C : Context) : Context :=
  foldl step C ops.

(** ** Preservation of the container invariant *)

Lemma sorted_key_ext {K : Type} `{KeyOrder K} (key key' : nat -> K)
    (l : list nat) :
  (forall x, key x = key' x) -> sorted key l -> sorted key' l.
Proof.
  intros Hk. unfold sorted. induction 1 as [|x l _ IH Hall]; constructor.
  - exact IH.
  - eapply Forall_impl; [exact Hall|]. cbn. intros y. rewrite !Hk. trivial.
Qed.

Lemma SymbolSet_wf_ext (syms syms' : nat -> Symbol) (c : SymbolSet) :
  (forall p, getName (syms p) = getName (syms' p)) ->
  (forall p, getAddress (syms p) = getAddress (syms' p)) ->
  SymbolSet_wf syms c -> SymbolSet_wf syms' c.
Proof.
  intros Hn Ha [Has Hns Had Hnd Hae Hne Hre].
  split; try assumption.
  - eapply sorted_key_ext; [|eassumption]. exact Ha.
  - eapply sorted_key_ext; [|eassumption]. exact Hn.
Qed.

Lemma empty_SymbolSet_wf (syms : nat -> Symbol) :
  SymbolSet_wf syms empty_SymbolSet.
Proof.
  split; cbn; try (apply SSorted_nil); try (apply NoDup_nil_2);
    try reflexivity; intros p; rewrite elem_of_nil, elem_of_empty; tauto.
Qed.

Lemma erase_wf (syms : nat -> Symbol) (S : nat) (c : SymbolSet) :
  SymbolSet_wf syms c -> SymbolSet_wf syms (erase S c).
Proof.
  intros [Has Hns Had Hnd Hae Hne Hre]. split; cbn.
  - apply sorted_filter; assumption.
  - apply sorted_filter; assumption.
  - apply NoDup_filter; assumption.
  - apply NoDup_filter; assumption.
  - intros p. rewrite list_elem_of_filter, Hae.
    rewrite elem_of_difference, elem_of_singleton. tauto.
  - intros p. rewrite list_elem_of_filter, Hne.
    rewrite elem_of_difference, elem_of_singleton. tauto.
  - congruence.
Qed.

Lemma emplace_wf (syms : nat -> Symbol) (S : nat) (c : SymbolSet) :
  SymbolSet_wf syms c -> SymbolSet_wf syms (emplace syms S c).
Proof.
  intros Hwf. unfold emplace. destruct (decide (S ∈ by_pointer c)) as [Hin|Hin];
    [exact Hwf|].
  destruct Hwf as [Has Hns Had Hnd Hae Hne Hre]. split; cbn.
  - apply ordered_insert_sorted; assumption.
  - apply ordered_insert_sorted; assumption.
  - rewrite ordered_insert_perm. constructor; [|assumption].
    rewrite Hae. exact Hin.
  - rewrite ordered_insert_perm. constructor; [|assumption].
    rewrite Hne. exact Hin.
  - intros p. rewrite ordered_insert_perm, elem_of_cons, Hae.
    rewrite elem_of_union, elem_of_singleton. tauto.
  - intros p. rewrite ordered_insert_perm, elem_of_cons, Hne.
    rewrite elem_of_union, elem_of_singleton. tauto.
  - congruence.
Qed.

Lemma emplace_by_pointer (syms : nat -> Symbol) (S : nat) (c : SymbolSet) :
  by_pointer (emplace syms S c) = {[S]} ∪ by_pointer c.
Proof.
  unfold emplace. destruct (decide (S ∈ by_pointer c)) as [Hin|Hn]; cbn;
    [|reflexivity].
  apply set_eq. intros p. rewrite elem_of_union, elem_of_singleton.
  split; [tauto|]. intros [->|Hp]; assumption.
Qed.

(** What [removeSymbol] leaves behind when it finds the symbol. *)
Lemma removeSymbol_found (this S : nat) (C : Context) :
  S ∈ by_pointer (Symbols (module_at C this)) ->
  let C' := snd (removeSymbol this S C) in
  fst (removeSymbol this S C) = true /\
  getModule (symbol_at C' S) = None /\
  (forall p, p <> S -> symbol_at C' p = symbol_at C p) /\
  getName (symbol_at C' S) = getName (symbol_at C S) /\
  getAddress (symbol_at C' S) = getAddress (symbol_at C S) /\
  Symbols (module_at C' this) = erase S (Symbols (module_at C this)) /\
  ProxyBlocks (module_at C' this) = ProxyBlocks (module_at C this) /\
  (forall M, M <> this -> module_at C' M = module_at C M) /\
  proxy_block_at C' = proxy_block_at C.
Proof.
  intros Hin. unfold removeSymbol.
  destruct (decide (S ∈ by_pointer (Symbols (module_at C this)))) as [_|Hn];
    [|contradiction].
  cbn. rewrite !fn_lookup_insert. cbn. repeat split.
  - intros p Hp. rewrite fn_lookup_insert_ne by congruence. reflexivity.
  - intros M HM. rewrite fn_lookup_insert_ne by congruence. reflexivity.
Qed.

(** [removeSymbol] on a symbol the module does not hold changes nothing. *)
Lemma removeSymbol_absent (this S : nat) (C : Context) :
  S ∉ by_pointer (Symbols (module_at C this)) ->
  removeSymbol this S C = (false, C).
Proof.
  intros Hn. unfold removeSymbol.
  destruct (decide (S ∈ by_pointer (Symbols (module_at C this))));
    [contradiction | reflexivity].
Qed.

Lemma removeSymbol_wf (this S : nat) (C : Context) :
  Context_wf C -> Context_wf (snd (removeSymbol this S C)).
Proof.
  intros [Hsets Hpar].
  destruct (decide (S ∈ by_pointer (Symbols (module_at C this)))) as [Hin|Hn];
    [|rewrite removeSymbol_absent by exact Hn; split; assumption].
  destruct (removeSymbol_found this S C Hin)
    as (_ & HpS & Hsym & HnS & HaS & Hthis & _ & Hmod & _).
  set (C' := snd (removeSymbol this S C)) in *.
  assert (Hkeys : forall p,
             getName (symbol_at C p) = getName (symbol_at C' p) /\
             getAddress (symbol_at C p) = getAddress (symbol_at C' p)).
  { intros p. destruct (decide (p = S)) as [->|Hp]; [auto|].
    rewrite Hsym by exact Hp. auto. }
  split.
  - intros M. apply (SymbolSet_wf_ext (symbol_at C)); try apply Hkeys.
    destruct (decide (M = this)) as [->|HM].
    + rewrite Hthis. apply erase_wf, Hsets.
    + rewrite Hmod by exact HM. apply Hsets.
  - intros p M. destruct (decide (p = S)) as [->|Hp].
    + rewrite HpS. split; [discriminate|]. intros Hin'.
      destruct (decide (M = this)) as [->|HM].
      * rewrite Hthis in Hin'. cbn in Hin'.
        rewrite elem_of_difference, elem_of_singleton in Hin'. tauto.
      * rewrite Hmod in Hin' by exact HM.
        apply Hpar in Hin'. apply Hpar in Hin. congruence.
    + rewrite Hsym by exact Hp. rewrite (Hpar p M).
      destruct (decide (M = this)) as [->|HM].
      * rewrite Hthis. cbn. rewrite elem_of_difference, elem_of_singleton.
        tauto.
      * rewrite Hmod by exact HM. reflexivity.
Qed.

(** The arena in the middle of [addSymbol], once the symbol has left its
    previous module. *)
Definition detached (S : nat) (C : Context) : Context :=
  match getModule (symbol_at C S) with
  | Some M' => snd (removeSymbol M' S C)
  | None => C
  end.

Lemma detached_wf (S : nat) (C : Context) :
  Context_wf C -> Context_wf (detached S C).
Proof.
  intros Hwf. unfold detached. destruct (getModule (symbol_at C S));
    [apply removeSymbol_wf|]; exact Hwf.
Qed.

Lemma detached_orphan (S : nat) (C : Context) :
  Context_wf C -> getModule (symbol_at (detached S C) S) = None.
Proof.
  intros Hwf. unfold detached.
  destruct (getModule (symbol_at C S)) as [M'|] eqn:E; [|exact E].
  apply (wf_parents C Hwf) in E.
  apply (removeSymbol_found M' S C E).
Qed.

Lemma detached_keys (S : nat) (C : Context) (p : nat) :
  getName (symbol_at (detached S C) p) = getName (symbol_at C p) /\
  getAddress (symbol_at (detached S C) p) = getAddress (symbol_at C p).
Proof.
  unfold detached. destruct (getModule (symbol_at C S)) as [M'|]; [|auto].
  destruct (decide (S ∈ by_pointer (Symbols (module_at C M')))) as [Hin|Hn].
  - destruct (removeSymbol_found M' S C Hin) as (_ & _ & Hsym & HnS & HaS & _).
    destruct (decide (p = S)) as [->|Hp]; [auto|]. rewrite Hsym by exact Hp.
    auto.
  - rewrite removeSymbol_absent by exact Hn. auto.
Qed.

(** What [addSymbol] leaves behind, in terms of the arena in its middle. *)
Lemma addSymbol_unfold (this S : nat) (C : Context) :
  let C1 := detached S C in
  let C' := snd (addSymbol this S C) in
  fst (addSymbol this S C) = S /\
  getModule (symbol_at C' S) = Some this /\
  getName (symbol_at C' S) = getName (symbol_at C1 S) /\
  getAddress (symbol_at C' S) = getAddress (symbol_at C1 S) /\
  (forall p, p <> S -> symbol_at C' p = symbol_at C1 p) /\
  Symbols (module_at C' this) =
    emplace (symbol_at C1) S (Symbols (module_at C1 this)) /\
  ProxyBlocks (module_at C' this) = ProxyBlocks (module_at C1 this) /\
  (forall M, M <> this -> module_at C' M = module_at C1 M) /\
  proxy_block_at C' = proxy_block_at C1.
Proof.
  unfold addSymbol. fold (detached S C). cbn.
  rewrite !fn_lookup_insert. cbn. repeat split.
  - intros p Hp. rewrite fn_lookup_insert_ne by congruence. reflexivity.
  - intros M HM. rewrite fn_lookup_insert_ne by congruence. reflexivity.
Qed.

Lemma addSymbol_wf (this S : nat) (C : Context) :
  Context_wf C -> Context_wf (snd (addSymbol this S C)).
Proof.
  intros Hwf.
  pose proof (detached_wf S C Hwf) as [Hsets Hpar].
  pose proof (detached_orphan S C Hwf) as Horph.
  destruct (addSymbol_unfold this S C)
    as (_ & HpS & HnS & HaS & Hsym & Hthis & _ & Hmod & _).
  set (C1 := detached S C) in *. set (C' := snd (addSymbol this S C)) in *.
  assert (Hkeys : forall p,
             getName (symbol_at C1 p) = getName (symbol_at C' p) /\
             getAddress (symbol_at C1 p) = getAddress (symbol_at C' p)).
  { intros p. destruct (decide (p = S)) as [->|Hp]; [auto|].
    rewrite Hsym by exact Hp. auto. }
  split.
  - intros M. apply (SymbolSet_wf_ext (symbol_at C1)); try apply Hkeys.
    destruct (decide (M = this)) as [->|HM].
    + rewrite Hthis. apply emplace_wf, Hsets.
    + rewrite Hmod by exact HM. apply Hsets.
  - intros p M. destruct (decide (p = S)) as [->|Hp].
    + rewrite HpS. destruct (decide (M = this)) as [->|HM].
      * rewrite Hthis, emplace_by_pointer.
        rewrite elem_of_union, elem_of_singleton. tauto.
      * rewrite Hmod by exact HM. rewrite <- (Hpar S M), Horph.
        split; [congruence | discriminate].
    + rewrite Hsym by exact Hp. rewrite (Hpar p M).
      destruct (decide (M = this)) as [->|HM].
      * rewrite Hthis, emplace_by_pointer.
        rewrite elem_of_union, elem_of_singleton. tauto.
      * rewrite Hmod by exact HM. reflexivity.
Qed.

(** The proxy-block mutators leave the symbols alone. *)
Lemma removeProxyBlock_symbols (this B : nat) (C : Context) :
  let C' := snd (removeProxyBlock this B C) in
  symbol_at C' = symbol_at C /\
  (forall M, Symbols (module_at C' M) = Symbols (module_at C M)).
Proof.
  unfold removeProxyBlock.
  destruct (decide (B ∈ ProxyBlocks (module_at C this))); cbn; [|auto].
  split; [reflexivity|]. intros M. destruct (decide (M = this)) as [->|HM].
  - rewrite fn_lookup_insert. reflexivity.
  - rewrite fn_lookup_insert_ne by congruence. reflexivity.
Qed.

Lemma addProxyBlock_symbols (this B : nat) (C : Context) :
  let C' := snd (addProxyBlock this B C) in
  symbol_at C' = symbol_at C /\
  (forall M, Symbols (module_at C' M) = Symbols (module_at C M)).
Proof.
  unfold addProxyBlock.
  destruct (decide (B ∈ ProxyBlocks (module_at C this))); cbn; [auto|].
  assert (H1 : symbol_at (match PBParent (proxy_block_at C B) with
                          | Some M' => snd (removeProxyBlock M' B C)
                          | None => C end) = symbol_at C /\
               forall M, Symbols (module_at
                  (match PBParent (proxy_block_at C B) with
                   | Some M' => snd (removeProxyBlock M' B C)
                   | None => C end) M) = Symbols (module_at C M)).
  { destruct (PBParent (proxy_block_at C B)) as [M'|]; [|auto].
    apply removeProxyBlock_symbols. }
  destruct H1 as [Hs Hm]. split; [exact Hs|].
  intros M. destruct (decide (M = this)) as [->|HM].
  - rewrite fn_lookup_insert. cbn. apply Hm.
  - rewrite fn_lookup_insert_ne by congruence. apply Hm.
Qed.

Lemma Context_wf_same_symbols (C C' : Context) :
  symbol_at C' = symbol_at C ->
  (forall M, Symbols (module_at C' M) = Symbols (module_at C M)) ->
  Context_wf C -> Context_wf C'.
Proof.
  intros Hs Hm [Hsets Hpar]. split.
  - intros M. rewrite Hs, Hm. apply Hsets.
  - intros p M. rewrite Hs, Hm. apply Hpar.
Qed.

Lemma step_wf (C : Context) (op : operation) :
  Context_wf C -> Context_wf (step C op).
Proof.
  intros Hwf. destruct op as [M p|M p|M B|M B]; cbn.
  - apply addSymbol_wf, Hwf.
  - apply removeSymbol_wf, Hwf.
  - destruct (addProxyBlock_symbols M B C) as [Hs Hm].
    exact (Context_wf_same_symbols C _ Hs Hm Hwf).
  - destruct (removeProxyBlock_symbols M B C) as [Hs Hm].
    exact (Context_wf_same_symbols C _ Hs Hm Hwf).
Qed.

Lemma fresh_wf (named : nat -> string * option Z * option nat) :
  Context_wf (fresh named).
Proof.
  split.
  - intros M. apply empty_SymbolSet_wf.
  - intros p M. cbn. split; [discriminate|].
    intros Hin. apply not_elem_of_empty in Hin. contradiction.
Qed.

(** Every arena reached from a fresh one by the mutators is well formed. *)
Lemma run_wf (ops : list operation) (C : Context) :
  Context_wf C -> Context_wf (run ops C).
Proof.
  unfold run. revert C. induction ops as [|op ops IH]; intros C Hwf; cbn;
    [exact Hwf|]. apply IH, step_wf, Hwf.
Qed.

(** ** What the ranges of the ordered indices denote *)

Section Ranges.

Context {K : Type} `{KeyOrder K}.
Variable key : nat -> K.

(** The range between the cuts of two nested downward closed predicates
    denotes exactly what lies between them, and is empty exactly when
    nothing does. *)
Lemma range_between_cuts (p q : nat -> bool) (l : list nat) :
  down_closed key p -> down_closed key q ->
  (forall x, p x = true -> q x = true) -> sorted key l ->
  let r := make_iterator_range (prefix_len p l) (prefix_len q l) in
  let found := filter (fun x => q x = true /\ p x = false) l in
  elements_of l r = Some found /\ (empty r = true <-> found = []).
Proof.
  intros Hp Hq Hpq Hs r found.
  pose proof (prefix_len_mono p q l Hpq) as Hle.
  pose proof (prefix_len_le q l) as Hlen.
  pose proof (sorted_slice key p q l Hp Hq Hpq Hs) as Hslice.
  fold found in Hslice. split.
  - unfold r. rewrite elements_of_slice by lia. rewrite Hslice. reflexivity.
  - unfold empty, r. cbn. rewrite bool_decide_eq_true.
    assert (Hl : length found = (prefix_len q l - prefix_len p l)%nat).
    { rewrite <- Hslice, length_take, length_drop. lia. }
    split.
    + intros Heq. apply nil_length_inv. lia.
    + intros Hnil. rewrite Hnil in Hl. cbn in Hl. lia.
Qed.

(** Whatever stands at or after the cut of a downward closed predicate
    fails it. *)
Lemma lookup_after_cut (p : nat -> bool) (l : list nat) (i x : nat) :
  down_closed key p -> sorted key l ->
  l !! i = Some x -> (prefix_len p l <= i)%nat -> p x = false.
Proof.
  intros Hp. revert i. induction l as [|y l IH]; intros i Hs Hi Hle;
    [discriminate|].
  cbn [prefix_len] in Hle. destruct (p y) eqn:E.
  - destruct i as [|i]; [lia|]. cbn in Hi.
    apply (IH i); [apply sorted_cons in Hs; tauto | exact Hi | lia].
  - pose proof (sorted_none_after key p y l Hp Hs E) as Hall.
    destruct i as [|i]; cbn in Hi; [congruence|].
    rewrite Forall_forall in Hall. apply Hall.
    eapply list_elem_of_lookup_2. exact Hi.
Qed.

End Ranges.

(** What a run of an iterator yields stood in the sequence, in order, from
    where the run began. *)
Lemma walk_is_prefix (rest : list nat) (it last : nat) (l : list nat) :
  walk rest it last = Some l -> exists k, rest = l ++ k.
Proof.
  revert it l. induction rest as [|x rest IH]; intros it l; cbn;
    destruct (it =? last)%nat.
  - intros [= <-]. exists []. reflexivity.
  - discriminate.
  - intros [= <-]. exists (x :: rest). reflexivity.
  - destruct (walk rest (S it) last) as [l'|] eqn:E; [|discriminate].
    cbn. intros [= <-]. destruct (IH _ _ E) as [k ->]. exists k. reflexivity.
Qed.

Lemma elements_of_lookup (l : list nat) (r : iterator_range) (found : list nat)
    (x : nat) :
  elements_of l r = Some found -> x ∈ found ->
  exists i, (range_begin r <= i)%nat /\ l !! i = Some x.
Proof.
  unfold elements_of. intros Hw Hx.
  apply walk_is_prefix in Hw as [k Hk].
  apply list_elem_of_lookup in Hx as [j Hj].
  exists (range_begin r + j)%nat. split; [lia|].
  rewrite <- lookup_drop, Hk. apply lookup_app_l_Some. exact Hj.
Qed.

(** In a well-formed container each ordered index lists the symbols of the
    module, each once. *)
Lemma by_name_symbols (C : Context) (this : nat) :
  SymbolSet_wf (symbol_at C) (Symbols (module_at C this)) ->
  by_name (Symbols (module_at C this)) ≡ₚ symbols C this.
Proof.
  intros [Has Hns Had Hnd Hae Hne Hre]. apply NoDup_Permutation.
  - exact Hnd.
  - apply NoDup_elements.
  - intros p. unfold symbols. rewrite elem_of_elements. apply Hne.
Qed.

Lemma by_address_symbols (C : Context) (this : nat) :
  SymbolSet_wf (symbol_at C) (Symbols (module_at C this)) ->
  by_address (Symbols (module_at C this)) ≡ₚ symbols C this.
Proof.
  intros [Has Hns Had Hnd Hae Hne Hre]. apply NoDup_Permutation.
  - exact Had.
  - apply NoDup_elements.
  - intros p. unfold symbols. rewrite elem_of_elements. apply Hae.
Qed.

Lemma optional_lt_Some (k : option Z) (a : Z) :
  optional_lt k (Some a) = false <-> exists x, k = Some x /\ a <= x.
Proof.
  destruct k as [x|]; cbn.
  - rewrite Z.ltb_ge. split; [eauto|]. intros (y & [= ->] & Hy). exact Hy.
  - split; [discriminate|]. intros (y & Hy & _). discriminate.
Qed.

(** ** The scenario of the specification: three symbols, two names *)

Definition scenario_symbols (p : nat) : string * option Z * option nat :=
  match p with
  | 0%nat => ("start"%string, Some 4096, None)
  | 1%nat => ("main"%string, None, None)
  | 2%nat => ("start"%string, Some 8192, None)
  | _ => (""%string, None, None)
  end.

Definition scenario : Context :=
  run [AddSymbol 0 0; AddSymbol 0 1; AddSymbol 0 2] (fresh scenario_symbols).

Lemma scenario_wf : Context_wf scenario.
Proof. apply run_wf, fresh_wf. Qed.

(** ** The properties *)

(** C4: [findSymbols(N)] denotes exactly the symbols of the module whose
    name is [N], each once; it is the empty range exactly when there is
    none, and it always denotes a list, never an error. *)
Theorem findSymbols_name_exact (C : Context) (this : nat) (N : string) :
  SymbolSet_wf (symbol_at C) (Symbols (module_at C this)) ->
  exists found,
    name_range_elements C this (findSymbols_name C this N) = Some found /\
    found ≡ₚ filter (fun p => getName (symbol_at C p) = N) (symbols C this) /\
    (empty (findSymbols_name C this N) = true <-> found = []).
Proof.
  intros Hwf. pose proof (by_name_symbols C this Hwf) as Hperm.
  destruct Hwf as [_ Hns _ _ _ _ _].
  set (l := by_name (Symbols (module_at C this))) in *.
  set (key := name_key (symbol_at C)) in *.
  destruct (range_between_cuts key
              (fun x => key_lt (key x) N) (fun x => negb (key_lt N (key x))) l)
    as [Hel Hempty].
  - apply down_closed_lt.
  - apply down_closed_not_gt.
  - intros x Hx. cbv beta. rewrite (key_lt_asym _ _ Hx). reflexivity.
  - exact Hns.
  - eexists. split; [exact Hel|]. split; [|exact Hempty].
    rewrite <- Hperm. erewrite list_filter_iff; [reflexivity|].
    intros x. cbv beta. rewrite negb_true_iff. split.
    + intros [H1 H2]. symmetry. apply key_lt_total; assumption.
    + unfold getName, key, name_key, getName.
      intros <-. split; apply key_lt_irrefl.
Qed.

Lemma findSymbols_name_exact_witness :
  SymbolSet_wf (symbol_at scenario) (Symbols (module_at scenario 0%nat)) /\
  (exists found,
     name_range_elements scenario 0 (findSymbols_name scenario 0 "start")
       = Some found /\
     found ≡ₚ filter (fun p => getName (symbol_at scenario p) = "start"%string)
                     (symbols scenario 0) /\
     (empty (findSymbols_name scenario 0 "start") = true <-> found = [])).
Proof.
  split.
  - apply (wf_symbol_sets scenario scenario_wf).
  - apply (findSymbols_name_exact scenario 0%nat "start"%string).
    apply (wf_symbol_sets scenario scenario_wf).
Defined.

(** The scenario itself: two symbols named "start", one named "main", none
    named "_nonexistent". *)
Example scenario_findSymbols :
  name_range_elements scenario 0 (findSymbols_name scenario 0 "start")
    = Some [0; 2]%nat /\
  name_range_elements scenario 0 (findSymbols_name scenario 0 "main")
    = Some [1]%nat /\
  name_range_elements scenario 0 (findSymbols_name scenario 0 "_nonexistent")
    = Some [] /\
  empty (findSymbols_name scenario 0 "_nonexistent") = true.
Proof. vm_compute. repeat split. Qed.

(** C5, as the code has it: for [Low <= High], [findSymbols(Low, High)]
    denotes exactly the symbols of the module whose address [A] satisfies
    [Low <= A < High], each once; it is the empty range exactly when there is
    none, and it always denotes a list. *)
Theorem findSymbols_range_exact (C : Context) (this : nat) (Low High : Z) :
  SymbolSet_wf (symbol_at C) (Symbols (module_at C this)) ->
  Low <= High ->
  exists found,
    addr_range_elements C this (findSymbols_range C this Low High)
      = Some found /\
    found ≡ₚ filter (fun p => in_interval Low High
                                (getAddress (symbol_at C p)) = true)
                    (symbols C this) /\
    (empty (findSymbols_range C this Low High) = true <-> found = []).
Proof.
  intros Hwf Hle. pose proof (by_address_symbols C this Hwf) as Hperm.
  destruct Hwf as [Has _ _ _ _ _ _].
  set (l := by_address (Symbols (module_at C this))) in *.
  set (key := address_key (symbol_at C)) in *.
  destruct (range_between_cuts key
              (fun x => key_lt (key x) (Some Low))
              (fun x => key_lt (key x) (Some High)) l)
    as [Hel Hempty].
  - apply down_closed_lt.
  - apply down_closed_lt.
  - intros x. cbv beta. destruct (key x) as [a|]; cbn; [|trivial].
    rewrite !Z.ltb_lt. lia.
  - exact Has.
  - eexists. split; [exact Hel|]. split; [|exact Hempty].
    rewrite <- Hperm. erewrite list_filter_iff; [reflexivity|].
    intros x. cbv beta. unfold key, address_key.
    destruct (getAddress (symbol_at C x)) as [a|]; cbn.
    + rewrite andb_true_iff, Z.leb_le, Z.ltb_lt, Z.ltb_ge. tauto.
    + split; [intros [_ ?]|]; discriminate.
Qed.

Lemma findSymbols_range_exact_witness :
  SymbolSet_wf (symbol_at scenario) (Symbols (module_at scenario 0%nat)) /\
  4096 <= 8192 /\
  (exists found,
     addr_range_elements scenario 0 (findSymbols_range scenario 0 4096 8192)
       = Some found /\
     found ≡ₚ filter (fun p => in_interval 4096 8192
                                 (getAddress (symbol_at scenario p)) = true)
                     (symbols scenario 0) /\
     (empty (findSymbols_range scenario 0 4096 8192) = true <-> found = [])).
Proof.
  split; [apply (wf_symbol_sets scenario scenario_wf)|].
  split; [lia|].
  apply (findSymbols_range_exact scenario 0%nat 4096 8192).
  - apply (wf_symbol_sets scenario scenario_wf).
  - lia.
Defined.

(** The half-open interval on the scenario: the symbol at 4096 is in
    [[4096, 8192)], the one at 8192 is not. *)
Example scenario_findSymbols_range :
  addr_range_elements scenario 0 (findSymbols_range scenario 0 4096 8192)
    = Some [0%nat].
Proof. vm_compute. reflexivity. Qed.

(** C5 fails when the bounds are crossed: in the scenario no symbol has an
    address [A] with [8192 <= A < 4096], yet [findSymbols(8192, 4096)]
    is not the empty range: its begin is [lower_bound(8192)], past its end
    [lower_bound(4096)], so it denotes no list of symbols at all. *)
Lemma findSymbols_range_crossed_counterexample :
  SymbolSet_wf (symbol_at scenario) (Symbols (module_at scenario 0%nat)) /\
  filter (fun p => in_interval 8192 4096
                     (getAddress (symbol_at scenario p)) = true)
         (symbols scenario 0) = [] /\
  findSymbols_range scenario 0 8192 4096 = make_iterator_range 2 1 /\
  empty (findSymbols_range scenario 0 8192 4096) = false /\
  ~ (exists found,
       addr_range_elements scenario 0 (findSymbols_range scenario 0 8192 4096)
         = Some found).
Proof.
  split; [apply (wf_symbol_sets scenario scenario_wf)|].
  split; [vm_compute; reflexivity|].
  split; [vm_compute; reflexivity|].
  split; [vm_compute; reflexivity|].
  intros [found Hfound]. vm_compute in Hfound. discriminate.
Qed.

(** C10: the absent address is below every address in the order of the
    by-address index, so the symbols without an address stand strictly
    before the begin of [findSymbols(Low, High)], everything from the begin
    on has an address not below [Low], and no symbol that the range yields
    lacks an address. *)
Theorem findSymbols_range_skips_addressless (C : Context) (this : nat)
    (Low High : Z) :
  SymbolSet_wf (symbol_at C) (Symbols (module_at C this)) ->
  let Index := by_address (Symbols (module_at C this)) in
  let r := findSymbols_range C this Low High in
  (forall a : Z, key_lt (None : option Z) (Some a) = true) /\
  (forall i p, Index !! i = Some p -> getAddress (symbol_at C p) = None ->
               (i < range_begin r)%nat) /\
  (forall i p, Index !! i = Some p -> (range_begin r <= i)%nat ->
               exists a, getAddress (symbol_at C p) = Some a /\ Low <= a) /\
  (forall found,
      addr_range_elements C this r = Some found ->
      forall p, p ∈ found -> getAddress (symbol_at C p) <> None).
Proof.
  intros [Has _ _ _ _ _ _] Index r.
  assert (Hafter : forall i p, Index !! i = Some p -> (range_begin r <= i)%nat ->
             exists a, getAddress (symbol_at C p) = Some a /\ Low <= a).
  { intros i p Hi Hle. apply optional_lt_Some.
    exact (lookup_after_cut (address_key (symbol_at C))
             (fun x => key_lt (address_key (symbol_at C) x) (Some Low))
             Index i p (down_closed_lt _ _) Has Hi Hle). }
  split; [reflexivity|]. split; [|split].
  - intros i p Hi Hnone.
    destruct (Nat.lt_ge_cases i (range_begin r)) as [Hlt|Hge]; [exact Hlt|].
    destruct (Hafter i p Hi Hge) as (a & Ha & _). congruence.
  - exact Hafter.
  - intros found Hfound p Hp.
    destruct (elements_of_lookup Index r found p Hfound Hp) as (i & Hle & Hi).
    destruct (Hafter i p Hi Hle) as (a & Ha & _). congruence.
Qed.

Lemma findSymbols_range_skips_addressless_witness :
  SymbolSet_wf (symbol_at scenario) (Symbols (module_at scenario 0%nat)) /\
  (forall found,
      addr_range_elements scenario 0 (findSymbols_range scenario 0 0 8193)
        = Some found ->
      forall p, p ∈ found -> getAddress (symbol_at scenario p) <> None).
Proof.
  split; [apply (wf_symbol_sets scenario scenario_wf)|].
  apply (findSymbols_range_skips_addressless scenario 0%nat 0 8193).
  apply (wf_symbol_sets scenario scenario_wf).
Defined.

(** On the scenario the symbol "main" has no address and is first in the
    by-address index; a query from address 0 up does not yield it. *)
Example scenario_addressless_first :
  by_address (Symbols (module_at scenario 0%nat)) = [1; 0; 2]%nat /\
  getAddress (symbol_at scenario 1%nat) = None /\
  addr_range_elements scenario 0 (findSymbols_range scenario 0 0 8193)
    = Some [0; 2]%nat.
Proof. vm_compute. repeat split. Qed.

(** C6: in an arena with consistent back-references, [addSymbol(S)] makes
    [this] the parent of [S] and lists [S] in [this] and in no other module;
    a successful [removeSymbol(S)] nulls the parent of [S] and unlists it;
    both leave every symbol's parent equal to the module that lists it, and
    so does every run of the mutators from a fresh arena. *)
Theorem symbol_parent_consistent (C : Context) (this S : nat) :
  Context_wf C ->
  (let Ca := snd (addSymbol this S C) in
   fst (addSymbol this S C) = S /\
   getModule (symbol_at Ca S) = Some this /\
   S ∈ symbols Ca this /\
   (forall M, M <> this -> S ∉ symbols Ca M) /\
   parents_consistent Ca) /\
  (forall Cr, removeSymbol this S C = (true, Cr) ->
     S ∈ symbols C this /\
     getModule (symbol_at Cr S) = None /\
     (forall M, S ∉ symbols Cr M) /\
     parents_consistent Cr) /\
  (forall ops named, parents_consistent (run ops (fresh named))).
Proof.
  intros Hwf. split; [|split].
  - cbn zeta. pose proof (addSymbol_wf this S C Hwf) as [_ Hpar].
    destruct (addSymbol_unfold this S C) as (Hret & HpS & _).
    split; [exact Hret|]. split; [exact HpS|].
    unfold symbols. split; [|split; [|exact Hpar]].
    + rewrite elem_of_elements. apply Hpar. exact HpS.
    + intros M HM. rewrite elem_of_elements, <- (Hpar S M), HpS. congruence.
  - intros Cr Hrm.
    destruct (decide (S ∈ by_pointer (Symbols (module_at C this)))) as [Hin|Hn];
      [|rewrite removeSymbol_absent in Hrm by exact Hn; discriminate].
    pose proof (removeSymbol_wf this S C Hwf) as [_ Hpar].
    destruct (removeSymbol_found this S C Hin) as (_ & HpS & _).
    rewrite Hrm in Hpar, HpS. cbn in Hpar, HpS. unfold symbols.
    split; [rewrite elem_of_elements; exact Hin|].
    split; [exact HpS|]. split; [|exact Hpar].
    intros M. rewrite elem_of_elements, <- (Hpar S M), HpS. discriminate.
  - intros ops named. apply (wf_parents _ (run_wf ops _ (fresh_wf named))).
Qed.

Lemma symbol_parent_consistent_witness :
  Context_wf scenario /\
  getModule (symbol_at (snd (addSymbol 1 0 scenario)) 0%nat) = Some 1%nat /\
  (0%nat ∈ symbols (snd (addSymbol 1 0 scenario)) 1) /\
  (0%nat ∉ symbols (snd (addSymbol 1 0 scenario)) 0).
Proof.
  split; [exact scenario_wf|].
  destruct (symbol_parent_consistent scenario 1%nat 0%nat scenario_wf)
    as [(_ & Hp & Hin & Hout & _) _].
  split; [exact Hp|]. split; [exact Hin|]. apply Hout. lia.
Defined.

(** Moving a symbol of the scenario to another module, then removing it. *)
Example scenario_move_symbol :
  let Ca := snd (addSymbol 1 0 scenario) in
  symbols scenario 0 = [2; 1; 0]%nat /\
  symbols Ca 0 = [2; 1]%nat /\ symbols Ca 1 = [0%nat] /\
  getModule (symbol_at Ca 0%nat) = Some 1%nat /\
  fst (removeSymbol 1 0 Ca) = true /\
  symbols (snd (removeSymbol 1 0 Ca)) 1 = [] /\
  getModule (symbol_at (snd (removeSymbol 1 0 Ca)) 0%nat) = None.
Proof. vm_compute. repeat split. Qed.

(** The result that stands for "nothing was removed": the [NoChange] of
    the tri-state for a proxy block, the [false] of [removeSymbol]. *)
Definition no_change_result (c : child) : remove_result :=
  match c with
  | ChildSymbol _ => Flag false
  | ChildProxyBlock _ => Status NoChange
  end.

(** C7, as the code has it: removing a child the module does not contain
    leaves the whole arena as it was (the collection, every index, every
    parent pointer), and returns [NoChange] for a proxy block and [false]
    for a symbol. *)
Theorem removeChild_absent_no_change (C : Context) (this : nat) (c : child) :
  ~ contains C this c ->
  removeChild this c C = (no_change_result c, C).
Proof.
  destruct c as [p|B]; cbn; intros Hn.
  - rewrite removeSymbol_absent by exact Hn. reflexivity.
  - unfold removeProxyBlock.
    destruct (decide (B ∈ ProxyBlocks (module_at C this)));
      [contradiction | reflexivity].
Qed.

Lemma removeChild_absent_no_change_witness :
  ~ contains scenario 0 (ChildProxyBlock 7) /\
  removeChild 0 (ChildProxyBlock 7) scenario = (Status NoChange, scenario) /\
  ~ contains scenario 1 (ChildSymbol 0) /\
  removeChild 1 (ChildSymbol 0) scenario = (Flag false, scenario).
Proof.
  assert (H1 : ~ contains scenario 0 (ChildProxyBlock 7))
    by (vm_compute; intros H; discriminate H).
  assert (H2 : ~ contains scenario 1 (ChildSymbol 0))
    by (vm_compute; intros H; discriminate H).
  split; [exact H1|]. split.
  - exact (removeChild_absent_no_change scenario 0%nat (ChildProxyBlock 7) H1).
  - split; [exact H2|].
    exact (removeChild_absent_no_change scenario 1%nat (ChildSymbol 0) H2).
Defined.

(** C7 fails for symbols: [removeSymbol] returns a [bool], so for a symbol
    the module does not contain the result is [false], which is not the
    [NoChange] of the tri-state. *)
Lemma removeSymbol_not_tristate_counterexample :
  ~ contains scenario 1 (ChildSymbol 0) /\
  fst (removeSymbol 1 0 scenario) = false /\
  fst (removeChild 1 (ChildSymbol 0) scenario) = Flag false /\
  fst (removeChild 1 (ChildSymbol 0) scenario) <> Status NoChange.
Proof.
  split; [vm_compute; intros H; discriminate H|].
  split; [vm_compute; reflexivity|].
  split; [vm_compute; reflexivity|].
  vm_compute. discriminate.
Qed.

End Mod.

(* ===================================================================== *)
(** * Bytes and little-endian integers                                    *)
(* ===================================================================== *)

Module Bytes.

Abbreviation byte := Corelib.Init.Byte.byte.

#[global] Instance byte_eq_dec : EqDecision byte :=
  Stdlib.Strings.Byte.byte_eq_dec.

(** The value of a byte, in [[0, 256)]. *)
Definition unsigned (b : byte) : Z := Z.of_N (Stdlib.Strings.Byte.to_N b).

(** The byte that holds the low eight bits of [z]. *)
Definition of_Z (z : Z) : byte :=
  match Stdlib.Strings.Byte.of_N (Z.to_N (z mod 256)) with
  | Some b => b
  | None => Corelib.Init.Byte.x00
  end.

(** The [n] low bytes of [z], least significant first. *)
Fixpoint le_split (n : nat) (z : Z) : list byte :=
  match n with
  | O => []
  | S n' => of_Z z :: le_split n' (z / 256)
  end.

(** The number that little-endian bytes spell. *)
Fixpoint le_combine (bs : list byte) : Z :=
  match bs with
  | [] => 0
  | b :: bs' => unsigned b + 256 * le_combine bs'
  end.

(** Lexicographic order on byte strings, bytes compared by value. *)
Fixpoint bytes_ltb (a b : list byte) : bool :=
  match a, b with
  | _, [] => false
  | [], _ :: _ => true
  | x :: a', y :: b' =>
      (unsigned x <? unsigned y) ||
      ((unsigned x =? unsigned y) && bytes_ltb a' b')
  end.

Lemma unsigned_range (b : byte) : 0 <= unsigned b < 256.
Proof.
  unfold unsigned. pose proof (Stdlib.Strings.Byte.to_N_bounded b). lia.
Qed.

Lemma unsigned_of_Z (z : Z) : unsigned (of_Z z) = z mod 256.
Proof.
  unfold unsigned, of_Z.
  pose proof (Z.mod_pos_bound z 256 ltac:(lia)) as Hb.
  destruct (Stdlib.Strings.Byte.of_N (Z.to_N (z mod 256))) as [b|] eqn:E.
  - apply Stdlib.Strings.Byte.to_of_N in E. rewrite E. lia.
  - apply Stdlib.Strings.Byte.of_N_None_iff in E. lia.
Qed.

Lemma of_Z_unsigned (b : byte) : of_Z (unsigned b) = b.
Proof.
  unfold of_Z, unsigned. pose proof (Stdlib.Strings.Byte.to_N_bounded b).
  rewrite Z.mod_small by lia. rewrite N2Z.id.
  rewrite Stdlib.Strings.Byte.of_to_N. reflexivity.
Qed.

Lemma unsigned_inj (a b : byte) : unsigned a = unsigned b -> a = b.
Proof.
  intros H. rewrite <- (of_Z_unsigned a), <- (of_Z_unsigned b), H. reflexivity.
Qed.

Lemma length_le_split (n : nat) (z : Z) : length (le_split n z) = n.
Proof. revert z. induction n as [|n IH]; intros z; cbn; [|rewrite IH]; reflexivity. Qed.

Lemma le_combine_bound (bs : list byte) :
  0 <= le_combine bs < 256 ^ Z.of_nat (length bs).
Proof.
  induction bs as [|b bs IH]; cbn [le_combine length]; [cbn; lia|].
  rewrite Nat2Z.inj_succ, Z.pow_succ_r by lia.
  pose proof (unsigned_range b). lia.
Qed.

Lemma le_combine_split (n : nat) (z : Z) :
  le_combine (le_split n z) = z mod 256 ^ Z.of_nat n.
Proof.
  revert z. induction n as [|n IH]; intros z; cbn [le_split le_combine].
  - cbn. rewrite Z.mod_1_r. reflexivity.
  - rewrite IH, unsigned_of_Z, Nat2Z.inj_succ, Z.pow_succ_r by lia.
    rewrite Z.rem_mul_r by lia. reflexivity.
Qed.

Lemma split_le_combine (bs : list byte) :
  le_split (length bs) (le_combine bs) = bs.
Proof.
  induction bs as [|b bs IH]; cbn [le_split le_combine length]; [reflexivity|].
  pose proof (unsigned_range b) as Hb. f_equal.
  - apply unsigned_inj. rewrite unsigned_of_Z.
    replace (unsigned b + 256 * le_combine bs)
      with (unsigned b + le_combine bs * 256) by lia.
    rewrite Z_mod_plus_full. apply Z.mod_small, Hb.
  - transitivity (le_split (length bs) (le_combine bs)); [|exact IH].
    f_equal.
    replace (unsigned b + 256 * le_combine bs)
      with (unsigned b + le_combine bs * 256) by lia.
    rewrite Z_div_plus_full by lia. rewrite Z.div_small by lia. lia.
Qed.

Lemma bytes_ltb_irrefl (a : list byte) : bytes_ltb a a = false.
Proof.
  induction a as [|x a IH]; cbn; [reflexivity|].
  rewrite Z.ltb_irrefl, Z.eqb_refl, IH. reflexivity.
Qed.

Lemma bytes_ltb_asym (a b : list byte) :
  bytes_ltb a b = true -> bytes_ltb b a = false.
Proof.
  revert b. induction a as [|x a IH]; intros [|y b]; cbn; try congruence.
  rewrite orb_true_iff, andb_true_iff, Z.ltb_lt, Z.eqb_eq.
  intros [Hlt|[Heq Hrec]].
  - destruct (Z.ltb_spec (unsigned y) (unsigned x)); [lia|].
    destruct (Z.eqb_spec (unsigned y) (unsigned x)); [lia|]. reflexivity.
  - rewrite Heq, Z.ltb_irrefl, Z.eqb_refl, (IH b Hrec). reflexivity.
Qed.

Lemma bytes_ltb_trans (a b c : list byte) :
  bytes_ltb a b = true -> bytes_ltb b c = true -> bytes_ltb a c = true.
Proof.
  revert b c. induction a as [|x a IH]; intros [|y b] [|z c]; cbn;
    try congruence.
  rewrite !orb_true_iff, !andb_true_iff, !Z.ltb_lt, !Z.eqb_eq.
  intros [Hxy|[Hxy Hab]] [Hyz|[Hyz Hbc]].
  - left. lia.
  - left. lia.
  - left. lia.
  - right. split; [lia|]. exact (IH b c Hab Hbc).
Qed.

Lemma bytes_ltb_total (a b : list byte) :
  bytes_ltb a b = false -> bytes_ltb b a = false -> a = b.
Proof.
  revert b. induction a as [|x a IH]; intros [|y b]; cbn; try congruence.
  rewrite !orb_false_iff, !andb_false_iff, !Z.ltb_ge, !Z.eqb_neq.
  intros [Hxy Hab] [Hyx Hba].
  assert (Heq : unsigned x = unsigned y) by lia.
  f_equal; [apply unsigned_inj, Heq|].
  apply IH; [destruct Hab | destruct Hba]; try assumption; lia.
Qed.

End Bytes.

(* ===================================================================== *)
(** * The wire envelope (section 4.8 of the specification)                *)
(* ===================================================================== *)

Module Envelope.

Import Bytes.

(** Modelled from the spec: the kinds of error of section 7 that a read
    can end in (the reading code is not among the sources). *)
Inductive Error : Type :=
| IoError
| BadEnvelope
| DecodeError
| AuxDataTypeError
| UsageError.

Inductive result (A : Type) : Type :=
| Ok (a : A)
| Err (e : Error).
Arguments Ok {A} a.
Arguments Err {A} e.

(** ** The payload: Protocol Buffers wire format *)

(** Modelled from the spec: one field of a message as it stands on the
    wire, "field-tagged, length-delimited", as in Protocol Buffers. *)
Inductive wire_value : Type :=
| Varint (n : Z)
| Fixed64 (bs : list byte)
| LengthDelimited (bs : list byte)
| Fixed32 (bs : list byte).

Record wire_field : Type := mkField {
  field_number : Z;
  field_value : wire_value
}.

(** Modelled from the spec: a base-128 varint, low group first, the high
    bit of a byte announcing another byte, at most [n] bytes long (the
    payload codec is not among the sources). *)
Fixpoint read_varint (n : nat) (bs : list byte) : option (Z * list byte) :=
  match n, bs with
  | S n', b :: bs' =>
      let u := unsigned b in
      if u <? 128 then Some (u, bs')
      else match read_varint n' bs' with
           | Some (hi, rest) => Some (u - 128 + 128 * hi, rest)
           | None => None
           end
  | _, _ => None
  end.

(** [n] bytes off the front, when there are that many. *)
Definition read_bytes (n : nat) (bs : list byte)
    : option (list byte * list byte) :=
  if (n <=? length bs)%nat then Some (take n bs, drop n bs) else None.

(** Modelled from the spec: one field, a varint key [(number << 3) | type]
    and a value laid out by the wire type: 0 varint, 1 eight bytes,
    2 length-delimited, 5 four bytes. *)
Definition read_field (bs : list byte) : option (wire_field * list byte) :=
  match read_varint 10 bs with
  | None => None
  | Some (tag, rest) =>
      let number := Z.shiftr tag 3 in
      let wire_type := Z.land tag 7 in
      if number =? 0 then None
      else if wire_type =? 0 then
        match read_varint 10 rest with
        | Some (n, rest') => Some (mkField number (Varint n), rest')
        | None => None
        end
      else if wire_type =? 1 then
        match read_bytes 8 rest with
        | Some (v, rest') => Some (mkField number (Fixed64 v), rest')
        | None => None
        end
      else if wire_type =? 2 then
        match read_varint 10 rest with
        | Some (len, rest') =>
            match read_bytes (Z.to_nat len) rest' with
            | Some (v, rest'') =>
                Some (mkField number (LengthDelimited v), rest'')
            | None => None
            end
        | None => None
        end
      else if wire_type =? 5 then
        match read_bytes 4 rest with
        | Some (v, rest') => Some (mkField number (Fixed32 v), rest')
        | None => None
        end
      else None
  end.

(** Modelled from the spec: a message is its fields one after the other,
    up to the last byte.  Every field takes at least one byte, so [fuel]
    as large as the input is enough. *)
Fixpoint read_fields (fuel : nat) (bs : list byte) : option (list wire_field) :=
  match bs with
  | [] => Some []
  | _ :: _ =>
      match fuel with
      | O => None
      | S fuel' =>
          match read_field bs with
          | Some (f, rest) => cons f <$> read_fields fuel' rest
          | None => None
          end
      end
  end.

Definition parse_message (payload : list byte) : option (list wire_field) :=
  read_fields (length payload) payload.

(** ** The envelope *)

(** The magic, "GTIRB". *)
Definition magic : list byte :=
  [Byte.x47; Byte.x54; Byte.x49; Byte.x52; Byte.x42].

Section Read.

(** The IR in memory, and the two steps of the read path that the
    specification names without giving their rules: the graph built in
    two passes from a parsed message, and the upgrade pipeline that reads
    the payload of an older version. *)
Variable IR : Type.
Variable materialize : list wire_field -> result IR.
Variable read_older : Z -> list byte -> result IR.

(** The current schema major version; the constant is not among the
    sources. *)
Variable current_version : Z.

(** Modelled from the spec: the read path.  Verify the magic; skip the two
    reserved bytes; read the version; a version above the current one has
    no upgrade path, an older one goes to the upgrade pipeline, the current
    one has its payload parsed and the graph built. *)
Definition read (B : list byte) : result IR :=
  if decide (take 5 B = magic) then
    match drop 5 B with
    | _ :: _ :: v :: payload =>
        let version := unsigned v in
        if version =? current_version then
          match parse_message payload with
          | Some m => materialize m
          | None => Err DecodeError
          end
        else if version <? current_version then read_older version payload
        else Err BadEnvelope
    | _ => Err BadEnvelope
    end
  else Err BadEnvelope.

(** The serializer of section 4.8, a depth-first traversal of the graph
    that emits the payload; its rules are not given either. *)
Variable serialize : IR -> list byte.

(** Modelled from the spec: the write path.  The magic, two reserved zero
    bytes, the current version, the payload. *)
Definition write (ir : IR) : list byte :=
  magic ++ Byte.x00 :: Byte.x00 :: of_Z current_version :: serialize ir.

(** The three files of the scenario. *)
Definition junk_file : list byte :=
  [Byte.x4a; Byte.x55; Byte.x4e; Byte.x4b; Byte.x21].
Definition wrong_version_file : list byte :=
  magic ++ [Byte.x00; Byte.x00; Byte.xff].
Definition corrupted_file : list byte :=
  magic ++ [Byte.x00; Byte.x00; of_Z current_version] ++ [Byte.xff].

Lemma read_bad_magic (B : list byte) :
  take 5 B <> magic -> read B = Err BadEnvelope.
Proof.
  intros Hne. unfold read. destruct (decide (take 5 B = magic));
    [contradiction | reflexivity].
Qed.

(** Past a well-formed header the version byte decides. *)
Lemma read_framed (r1 r2 v : byte) (payload : list byte) :
  read (magic ++ r1 :: r2 :: v :: payload) =
    if unsigned v =? current_version then
      match parse_message payload with
      | Some m => materialize m
      | None => Err DecodeError
      end
    else if unsigned v <? current_version
         then read_older (unsigned v) payload
         else Err BadEnvelope.
Proof.
  unfold read.
  change (take 5 (magic ++ r1 :: r2 :: v :: payload)) with magic.
  change (drop 5 (magic ++ r1 :: r2 :: v :: payload))
    with (r1 :: r2 :: v :: payload).
  destruct (decide (magic = magic)); [reflexivity | contradiction].
Qed.

Lemma parse_lone_ff : parse_message [Byte.xff] = None.
Proof. reflexivity. Qed.

(** The header is reproduced by [write]; what is left of the round trip is
    the payload: an envelope at the current version is written back as it
    was read whenever the serializer reproduces its payload. *)
Lemma write_read_framed (payload : list byte) (m : list wire_field) (ir : IR) :
  0 <= current_version < 256 ->
  parse_message payload = Some m -> materialize m = Ok ir ->
  serialize ir = payload ->
  let B := magic ++ Byte.x00 :: Byte.x00 :: of_Z current_version :: payload in
  read B = Ok ir /\ write ir = B.
Proof.
  intros Hv Hp Hm Hs B. unfold B, write. rewrite read_framed, unsigned_of_Z.
  rewrite Z.mod_small by lia. rewrite Z.eqb_refl, Hp, Hm, Hs.
  split; reflexivity.
Qed.

(** C3: a file that does not begin with the magic, such as "JUNK!", fails
    with [BadEnvelope]; the magic followed by [0, 0, 255] fails with
    [BadEnvelope]; the magic, the current version and the lone byte [0xFF]
    fail with [DecodeError]; none of the three yields an IR. *)
Theorem read_rejects_bad_files :
  0 <= current_version < 255 ->
  (forall B, take 5 B <> magic -> read B = Err BadEnvelope) /\
  read junk_file = Err BadEnvelope /\
  read wrong_version_file = Err BadEnvelope /\
  read corrupted_file = Err DecodeError /\
  (forall ir, read junk_file <> Ok ir /\ read wrong_version_file <> Ok ir /\
              read corrupted_file <> Ok ir).
Proof.
  intros Hv.
  assert (H1 : read junk_file = Err BadEnvelope) by reflexivity.
  assert (H2 : read wrong_version_file = Err BadEnvelope).
  { unfold wrong_version_file. rewrite read_framed.
    change (unsigned Byte.xff) with 255.
    destruct (Z.eqb_spec 255 current_version) as [?|_]; [lia|].
    destruct (Z.ltb_spec 255 current_version) as [?|_]; [lia|]. reflexivity. }
  assert (H3 : read corrupted_file = Err DecodeError).
  { unfold corrupted_file.
    change (magic ++ [Byte.x00; Byte.x00; of_Z current_version] ++ [Byte.xff])
      with (magic ++ Byte.x00 :: Byte.x00 :: of_Z current_version :: [Byte.xff]).
    rewrite read_framed, unsigned_of_Z.
    rewrite Z.mod_small by lia. rewrite Z.eqb_refl, parse_lone_ff.
    reflexivity. }
  split; [exact read_bad_magic|]. repeat split; try assumption;
    rewrite ?H1, ?H2, ?H3; discriminate.
Qed.

End Read.

(** The scenario at schema version 1, with a graph builder that accepts
    every message. *)
Lemma read_rejects_bad_files_witness :
  0 <= 1 < 255 /\
  read unit (fun _ => Ok tt) (fun _ _ => Ok tt) 1 junk_file = Err BadEnvelope /\
  read unit (fun _ => Ok tt) (fun _ _ => Ok tt) 1 wrong_version_file
    = Err BadEnvelope /\
  read unit (fun _ => Ok tt) (fun _ _ => Ok tt) 1 (corrupted_file 1)
    = Err DecodeError.
Proof.
  assert (Hv : 0 <= 1 < 255) by lia.
  destruct (read_rejects_bad_files unit (fun _ => Ok tt) (fun _ _ => Ok tt)
              1 Hv) as (_ & H1 & H2 & H3 & _).
  repeat split; try lia; assumption.
Defined.

End Envelope.


(* ===================================================================== *)
(** * The AuxData codec (section 4.7 of the specification)                *)
(* ===================================================================== *)

Module AuxData.

Import Bytes.

(** No AuxData code is among the sources, only the Lisp test that calls
    the encoder and the decoder: the type expressions, the values and the
    codec below follow section 4.7 of the specification. *)

#[local] Set Warnings "-register-all".

Inductive width : Type := W8 | W16 | W32 | W64.

Definition width_bytes (w : width) : nat :=
  match w with W8 => 1 | W16 => 2 | W32 => 4 | W64 => 8 end%nat.

(** Modelled from the spec: the type expressions (their code is not among
    the sources): the leaves [bool], [int8] .. [int64], [uint8] ..
    [uint64], [float], [double], [string], [UUID], [Addr], [Offset], and
    the five constructors. *)
Inductive ty : Type :=
| TBool
| TInt (w : width)
| TUInt (w : width)
| TFloat
| TDouble
| TString
| TUUID
| TAddr
| TOffset
| TSequence (t : ty)
| TSet (t : ty)
| TMapping (k v : ty)
| TTuple (ts : list ty)
| TVariant (ts : list ty).

(** Modelled from the spec: the values (their code is not among the
    sources).  An integer of any width is its number; a [float] or
    [double] is carried as its IEEE-754 bit pattern; a string is its UTF-8
    bytes; a set is the list of its elements in ascending order of their
    encoded form, a mapping the list of its pairs in ascending order of the
    encoded key. *)
Inductive value : Type :=
| VBool (b : bool)
| VInt (z : Z)
| VFloat (bits : Z)
| VDouble (bits : Z)
| VString (s : list byte)
| VUUID (u : list byte)
| VAddr (a : Z)
| VOffset (u : list byte) (d : Z)
| VSequence (vs : list value)
| VSet (vs : list value)
| VMapping (kvs : list (value * value))
| VTuple (vs : list value)
| VVariant (tag : nat) (v : value).

(** Modelled from the spec: the typed failures of the strict decoder
    (trailing bytes, missing bytes, a variant tag out of range, a
    duplicate, set elements or mapping keys that do not arrive in the order
    of the wire), and of an encoder handed a value that is not of the
    type. *)
Inductive failure : Type :=
| MissingBytes
| TrailingBytes
| BadBool
| TagOutOfRange
| DuplicateElement
| DuplicateKey
| NotAscending
| TypeMismatch.

Inductive result (A : Type) : Type :=
| Ok (a : A)
| Err (e : failure).
Arguments Ok {A} a.
Arguments Err {A} e.

Definition bind {A B : Type} (r : result A) (f : A -> result B) : result B :=
  match r with
  | Ok a => f a
  | Err e => Err e
  end.

Notation "'let*' p ':=' r 'in' k" := (bind r (fun p => k))
  (at level 10, p pattern, r at level 100, k at level 200).

(** ** Ordering on the wire *)

(** Insertion before the first item whose key is not below. *)
Fixpoint insert_by {A : Type} (key : A -> list byte) (x : A) (l : list A)
    : list A :=
  match l with
  | [] => [x]
  | y :: l' =>
      if bytes_ltb (key y) (key x) then y :: insert_by key x l'
      else x :: y :: l'
  end.

(** Ascending order of the key. *)
Definition sort_by {A : Type} (key : A -> list byte) (l : list A) : list A :=
  foldr (insert_by key) [] l.

Fixpoint strictly_ascending (ks : list (list byte)) : bool :=
  match ks with
  | a :: (b :: _) as rest => bytes_ltb a b && strictly_ascending rest
  | _ => true
  end.

(** ** Encoding *)

Definition u64 (n : Z) : list byte := le_split 8 n.

Definition bool_byte (b : bool) : byte :=
  if b then Byte.x01 else Byte.x00.

(** The fields of a tuple, each by its own encoder, in declared order. *)
Fixpoint enc_fields (encs : list (value -> list byte)) (vs : list value)
    : list byte :=
  match encs, vs with
  | e :: encs', v :: vs' => e v ++ enc_fields encs' vs'
  | _, _ => []
  end.

(** Modelled from the spec: the wire format of typed values (the encoder
    is not among the sources).  Integers little-endian, signed ones in
    two's complement; a count or a tag is a [uint64]; the elements of a set
    and the keys of a mapping are written in ascending order of their
    encoded form.  On a value that is not of the type the result is of no
    interest; [encode] below refuses such values. *)
Fixpoint enc (T : ty) (v : value) {struct T} : list byte :=
  match T, v with
  | TBool, VBool b => [bool_byte b]
  | TInt w, VInt z => le_split (width_bytes w) z
  | TUInt w, VInt z => le_split (width_bytes w) z
  | TFloat, VFloat bits => le_split 4 bits
  | TDouble, VDouble bits => le_split 8 bits
  | TString, VString s => u64 (Z.of_nat (length s)) ++ s
  | TUUID, VUUID u => u
  | TAddr, VAddr a => u64 a
  | TOffset, VOffset u d => u ++ u64 d
  | TSequence t, VSequence vs =>
      u64 (Z.of_nat (length vs)) ++ concat (map (enc t) vs)
  | TSet t, VSet vs =>
      u64 (Z.of_nat (length vs)) ++ concat (sort_by id (map (enc t) vs))
  | TMapping k t, VMapping kvs =>
      u64 (Z.of_nat (length kvs)) ++
      concat (map (fun p => fst p ++ snd p)
                  (sort_by fst (map (fun kv => (enc k (fst kv), enc t (snd kv)))
                                    kvs)))
  | TTuple ts, VTuple vs => enc_fields (map enc ts) vs
  | TVariant ts, VVariant tag v =>
      u64 (Z.of_nat tag) ++
      match nth_error (map enc ts) tag with
      | Some e => e v
      | None => []
      end
  | _, _ => []
  end.

(** ** Values of a type *)

Definition width_bits (w : width) : Z := 8 * Z.of_nat (width_bytes w).

Definition in_signed (w : width) (z : Z) : bool :=
  (- 2 ^ (width_bits w - 1) <=? z) && (z <? 2 ^ (width_bits w - 1)).
Definition in_unsigned (bits : Z) (z : Z) : bool :=
  (0 <=? z) && (z <? 2 ^ bits).

(** A count that fits the [uint64] prefix. *)
Definition countable {A : Type} (l : list A) : bool :=
  Z.of_nat (length l) <? 2 ^ 64.

Fixpoint fields_typed (checks : list (value -> bool)) (vs : list value)
    : bool :=
  match checks, vs with
  | [], [] => true
  | c :: checks', v :: vs' => c v && fields_typed checks' vs'
  | _, _ => false
  end.

(** Modelled from the spec: [v] is a value of type [T]; a set has its
    elements unique, a mapping its keys. *)
Fixpoint well_typed (T : ty) (v : value) {struct T} : bool :=
  match T, v with
  | TBool, VBool _ => true
  | TInt w, VInt z => in_signed w z
  | TUInt w, VInt z => in_unsigned (width_bits w) z
  | TFloat, VFloat bits => in_unsigned 32 bits
  | TDouble, VDouble bits => in_unsigned 64 bits
  | TString, VString s => countable s
  | TUUID, VUUID u => (length u =? 16)%nat
  | TAddr, VAddr a => in_unsigned 64 a
  | TOffset, VOffset u d => (length u =? 16)%nat && in_unsigned 64 d
  | TSequence t, VSequence vs => countable vs && forallb (well_typed t) vs
  | TSet t, VSet vs =>
      countable vs && forallb (well_typed t) vs &&
      strictly_ascending (map (enc t) vs)
  | TMapping k t, VMapping kvs =>
      countable kvs &&
      forallb (fun kv => well_typed k (fst kv) && well_typed t (snd kv)) kvs &&
      strictly_ascending (map (fun kv => enc k (fst kv)) kvs)
  | TTuple ts, VTuple vs => fields_typed (map well_typed ts) vs
  | TVariant ts, VVariant tag v =>
      (Z.of_nat tag <? 2 ^ 64) &&
      match nth_error (map well_typed ts) tag with
      | Some c => c v
      | None => false
      end
  | _, _ => false
  end.

(** Modelled from the spec: [encode(T, v)] (the encoder is not among the
    sources); a value that is not of the type is a typed failure. *)
Definition encode (T : ty) (v : value) : result (list byte) :=
  if well_typed T v then Ok (enc T v) else Err TypeMismatch.

(** ** Decoding *)

(** A decoder takes what it needs off the front and hands back the rest. *)
Definition decoder (A : Type) : Type := list byte -> result (A * list byte).

Definition get_bytes (n : nat) : decoder (list byte) := fun bs =>
  if (n <=? length bs)%nat then Ok (take n bs, drop n bs)
  else Err MissingBytes.

Definition get_uint (n : nat) : decoder Z := fun bs =>
  let* (raw, rest) := get_bytes n bs in Ok (le_combine raw, rest).

(** Two's complement on [bits] bits. *)
Definition to_signed (bits : Z) (u : Z) : Z :=
  if u <? 2 ^ (bits - 1) then u else u - 2 ^ bits.

Definition get_bool : decoder bool := fun bs =>
  match bs with
  | [] => Err MissingBytes
  | b :: rest =>
      if decide (b = Byte.x00) then Ok (false, rest)
      else if decide (b = Byte.x01) then Ok (true, rest)
      else Err BadBool
  end.

(** [n] items, one after the other. *)
Fixpoint get_many {A : Type} (d : decoder A) (n : nat) : decoder (list A) :=
  fun bs =>
    match n with
    | O => Ok ([], bs)
    | S n' =>
        let* (x, rest) := d bs in
        let* (xs, rest') := get_many d n' rest in
        Ok (x :: xs, rest')
    end.

Definition get_pair {A B : Type} (da : decoder A) (db : decoder B)
    : decoder (A * B) := fun bs =>
  let* (a, rest) := da bs in
  let* (b, rest') := db rest in
  Ok ((a, b), rest').

(** The fields of a tuple, each by its own decoder, in declared order. *)
Fixpoint get_fields (ds : list (decoder value)) : decoder (list value) :=
  fun bs =>
    match ds with
    | [] => Ok ([], bs)
    | d :: ds' =>
        let* (v, rest) := d bs in
        let* (vs, rest') := get_fields ds' rest in
        Ok (v :: vs, rest')
    end.

(** Modelled from the spec: the check of the encoded elements of a set
    (of the encoded keys of a mapping) as they stand on the wire.  A set is
    "unique, ordered-on-wire", and what decodes must encode to the bytes it
    came from: the items are accepted in strictly ascending order only.
    Items that are pairwise distinct but out of order are one failure, a
    repeated item is the duplicate failure of its container. *)
Definition wire_order (duplicate : failure) (ks : list (list byte))
    : result unit :=
  if strictly_ascending ks then Ok tt
  else if strictly_ascending (sort_by id ks) then Err NotAscending
  else Err duplicate.

(** Modelled from the spec: the decoder of a type, on a prefix of the
    input (the decoder is not among the sources).  Missing bytes, a byte
    other than 0 or 1 for a [bool], a variant tag out of range, duplicate
    elements or keys, and elements or keys out of the order of the wire are
    failures. *)
Fixpoint dec (T : ty) {struct T} : decoder value :=
  fun bs =>
    match T with
    | TBool => let* (b, rest) := get_bool bs in Ok (VBool b, rest)
    | TInt w =>
        let* (u, rest) := get_uint (width_bytes w) bs in
        Ok (VInt (to_signed (width_bits w) u), rest)
    | TUInt w =>
        let* (u, rest) := get_uint (width_bytes w) bs in Ok (VInt u, rest)
    | TFloat => let* (u, rest) := get_uint 4 bs in Ok (VFloat u, rest)
    | TDouble => let* (u, rest) := get_uint 8 bs in Ok (VDouble u, rest)
    | TString =>
        let* (n, rest) := get_uint 8 bs in
        let* (s, rest') := get_bytes (Z.to_nat n) rest in
        Ok (VString s, rest')
    | TUUID => let* (u, rest) := get_bytes 16 bs in Ok (VUUID u, rest)
    | TAddr => let* (a, rest) := get_uint 8 bs in Ok (VAddr a, rest)
    | TOffset =>
        let* (u, rest) := get_bytes 16 bs in
        let* (d, rest') := get_uint 8 rest in
        Ok (VOffset u d, rest')
    | TSequence t =>
        let* (n, rest) := get_uint 8 bs in
        let* (vs, rest') := get_many (dec t) (Z.to_nat n) rest in
        Ok (VSequence vs, rest')
    | TSet t =>
        let* (n, rest) := get_uint 8 bs in
        let* (vs, rest') := get_many (dec t) (Z.to_nat n) rest in
        let* _ := wire_order DuplicateElement (map (enc t) vs) in
        Ok (VSet vs, rest')
    | TMapping k t =>
        let* (n, rest) := get_uint 8 bs in
        let* (kvs, rest') :=
            get_many (get_pair (dec k) (dec t)) (Z.to_nat n) rest in
        let* _ :=
            wire_order DuplicateKey (map (fun kv => enc k (fst kv)) kvs) in
        Ok (VMapping kvs, rest')
    | TTuple ts =>
        let* (vs, rest) := get_fields (map dec ts) bs in Ok (VTuple vs, rest)
    | TVariant ts =>
        let* (tag, rest) := get_uint 8 bs in
        match nth_error (map dec ts) (Z.to_nat tag) with
        | Some d => let* (v, rest') := d rest in Ok (VVariant (Z.to_nat tag) v, rest')
        | None => Err TagOutOfRange
        end
    end.

(** Modelled from the spec: [decode(T, bytes)] (the decoder is not among
    the sources): strict, nothing may be left over. *)
Definition decode (T : ty) (bs : list byte) : result value :=
  let* (v, rest) := dec T bs in
  match rest with
  | [] => Ok v
  | _ :: _ => Err TrailingBytes
  end.

(** ** Induction on type expressions *)

Section TyInduction.

Variable P : ty -> Prop.
Hypothesis HBool : P TBool.
Hypothesis HInt : forall w, P (TInt w).
Hypothesis HUInt : forall w, P (TUInt w).
Hypothesis HFloat : P TFloat.
Hypothesis HDouble : P TDouble.
Hypothesis HString : P TString.
Hypothesis HUUID : P TUUID.
Hypothesis HAddr : P TAddr.
Hypothesis HOffset : P TOffset.
Hypothesis HSequence : forall t, P t -> P (TSequence t).
Hypothesis HSet : forall t, P t -> P (TSet t).
Hypothesis HMapping : forall k t, P k -> P t -> P (TMapping k t).
Hypothesis HTuple : forall ts, Forall P ts -> P (TTuple ts).
Hypothesis HVariant : forall ts, Forall P ts -> P (TVariant ts).

Fixpoint ty_nested_ind (T : ty) : P T :=
  match T with
  | TBool => HBool
  | TInt w => HInt w
  | TUInt w => HUInt w
  | TFloat => HFloat
  | TDouble => HDouble
  | TString => HString
  | TUUID => HUUID
  | TAddr => HAddr
  | TOffset => HOffset
  | TSequence t => HSequence t (ty_nested_ind t)
  | TSet t => HSet t (ty_nested_ind t)
  | TMapping k t => HMapping k t (ty_nested_ind k) (ty_nested_ind t)
  | TTuple ts =>
      HTuple ts
        ((fix all (l : list ty) : Forall P l :=
            match l with
            | [] => @List.Forall_nil ty P
            | t :: l' => @List.Forall_cons ty P t l' (ty_nested_ind t) (all l')
            end) ts)
  | TVariant ts =>
      HVariant ts
        ((fix all (l : list ty) : Forall P l :=
            match l with
            | [] => @List.Forall_nil ty P
            | t :: l' => @List.Forall_cons ty P t l' (ty_nested_ind t) (all l')
            end) ts)
  end.

End TyInduction.

(** ** Facts about the pieces *)

Lemma get_bytes_app (x rest : list byte) :
  get_bytes (length x) (x ++ rest) = Ok (x, rest).
Proof.
  unfold get_bytes. rewrite length_app.
  destruct (Nat.leb_spec (length x) (length x + length rest)) as [_|?]; [|lia].
  rewrite take_app_length, drop_app_length. reflexivity.
Qed.

Lemma get_bytes_Ok (n : nat) (bs x rest : list byte) :
  get_bytes n bs = Ok (x, rest) -> bs = x ++ rest /\ length x = n.
Proof.
  unfold get_bytes. destruct (Nat.leb_spec n (length bs)) as [Hle|_];
    [|discriminate].
  intros [= <- <-]. rewrite take_drop, length_take. split; [reflexivity|lia].
Qed.

Lemma get_uint_split (n : nat) (z : Z) (rest : list byte) :
  get_uint n (le_split n z ++ rest) = Ok (z mod 256 ^ Z.of_nat n, rest).
Proof.
  unfold get_uint.
  rewrite <- (length_le_split n z) at 1. rewrite get_bytes_app. cbn.
  rewrite le_combine_split. reflexivity.
Qed.

Lemma get_uint_Ok (n : nat) (bs : list byte) (u : Z) (rest : list byte) :
  get_uint n bs = Ok (u, rest) ->
  bs = le_split n u ++ rest /\ 0 <= u < 256 ^ Z.of_nat n.
Proof.
  unfold get_uint. destruct (get_bytes n bs) as [[raw rest']|e] eqn:E;
    [|discriminate].
  cbn. intros [= <- <-]. apply get_bytes_Ok in E as [-> Hlen].
  rewrite <- Hlen. rewrite split_le_combine. split; [reflexivity|].
  apply le_combine_bound.
Qed.

Lemma pow256 (n : nat) : 256 ^ Z.of_nat n = 2 ^ (8 * Z.of_nat n).
Proof. rewrite Z.pow_mul_r by lia. reflexivity. Qed.

Lemma in_unsigned_spec (bits z : Z) :
  in_unsigned bits z = true <-> 0 <= z < 2 ^ bits.
Proof. unfold in_unsigned. rewrite andb_true_iff, Z.leb_le, Z.ltb_lt. tauto. Qed.

Lemma in_signed_spec (w : width) (z : Z) :
  in_signed w z = true <->
  - 2 ^ (width_bits w - 1) <= z < 2 ^ (width_bits w - 1).
Proof. unfold in_signed. rewrite andb_true_iff, Z.leb_le, Z.ltb_lt. tauto. Qed.

Lemma width_bits_pos (w : width) : 0 < width_bits w - 1.
Proof. destruct w; reflexivity. Qed.

Lemma pow2_half (bits : Z) : 0 < bits - 1 -> 2 ^ bits = 2 * 2 ^ (bits - 1).
Proof.
  intros H. replace bits with (Z.succ (bits - 1)) at 1 by lia.
  rewrite Z.pow_succ_r by lia. reflexivity.
Qed.

(** Two's complement reads back what was written. *)
Lemma to_signed_mod (bits z : Z) :
  0 < bits - 1 -> - 2 ^ (bits - 1) <= z < 2 ^ (bits - 1) ->
  to_signed bits (z mod 2 ^ bits) = z.
Proof.
  intros Hb Hz. unfold to_signed. pose proof (pow2_half bits Hb) as Hp.
  assert (0 < 2 ^ (bits - 1)) by (apply Z.pow_pos_nonneg; lia).
  destruct (Z.le_gt_cases 0 z) as [Hnn|Hneg].
  - rewrite Z.mod_small by lia.
    destruct (Z.ltb_spec z (2 ^ (bits - 1))); lia.
  - replace (z mod 2 ^ bits) with (z + 2 ^ bits).
    + destruct (Z.ltb_spec (z + 2 ^ bits) (2 ^ (bits - 1))); lia.
    + symmetry. rewrite <- (Z.mod_small (z + 2 ^ bits) (2 ^ bits)) by lia.
      replace (z + 2 ^ bits) with (z + 1 * 2 ^ bits) by lia.
      rewrite Z_mod_plus_full. reflexivity.
Qed.

Lemma to_signed_range (bits u : Z) :
  0 < bits - 1 -> 0 <= u < 2 ^ bits ->
  - 2 ^ (bits - 1) <= to_signed bits u < 2 ^ (bits - 1).
Proof.
  intros Hb Hu. unfold to_signed. pose proof (pow2_half bits Hb) as Hp.
  destruct (Z.ltb_spec u (2 ^ (bits - 1))); lia.
Qed.

Lemma get_bool_byte (b : bool) (rest : list byte) :
  get_bool (bool_byte b :: rest) = Ok (b, rest).
Proof. destruct b; reflexivity. Qed.

Lemma get_many_app {A : Type} (d : decoder A) (e : A -> list byte)
    (xs : list A) (rest : list byte) :
  Forall (fun x => forall rest', d (e x ++ rest') = Ok (x, rest')) xs ->
  get_many d (length xs) (concat (map e xs) ++ rest) = Ok (xs, rest).
Proof.
  induction 1 as [|x xs Hx _ IH]; [reflexivity|].
  cbn. rewrite <- app_assoc, Hx. cbn. rewrite IH. reflexivity.
Qed.

Lemma get_many_Ok {A : Type} (d : decoder A) (Q : A -> Prop) (n : nat)
    (bs : list byte) (xs : list A) (rest : list byte) :
  (forall bs' x rest', d bs' = Ok (x, rest') -> Q x) ->
  get_many d n bs = Ok (xs, rest) -> length xs = n /\ Forall Q xs.
Proof.
  intros Hd. revert bs xs rest. induction n as [|n IH]; intros bs xs rest; cbn.
  - intros [= <- _]. split; [reflexivity | constructor].
  - destruct (d bs) as [[x r1]|e] eqn:E; [|discriminate]. cbn.
    destruct (get_many d n r1) as [[xs' r2]|e] eqn:E'; [|discriminate]. cbn.
    intros [= <- _]. destruct (IH _ _ _ E') as [Hl Hall].
    split; [cbn; lia|]. constructor; [eapply Hd; exact E | exact Hall].
Qed.

(** ** Facts about the order on the wire *)

Lemma sort_by_ascending {A : Type} (key : A -> list byte) (l : list A) :
  strictly_ascending (map key l) = true -> sort_by key l = l.
Proof.
  induction l as [|x l IH]; [reflexivity|].
  intros Hs. cbn [sort_by foldr]. fold (sort_by key l).
  destruct l as [|y l']; [reflexivity|].
  cbn [map strictly_ascending] in Hs. apply andb_true_iff in Hs as [Hxy Hs].
  rewrite IH by exact Hs. cbn [insert_by].
  rewrite (bytes_ltb_asym _ _ Hxy). reflexivity.
Qed.

Lemma insert_by_perm {A : Type} (key : A -> list byte) (x : A) (l : list A) :
  insert_by key x l ≡ₚ x :: l.
Proof.
  induction l as [|y l IH]; cbn; [reflexivity|].
  destruct (bytes_ltb (key y) (key x)); [|reflexivity].
  rewrite IH. apply Permutation_swap.
Qed.

Lemma sort_by_perm {A : Type} (key : A -> list byte) (l : list A) :
  sort_by key l ≡ₚ l.
Proof.
  induction l as [|x l IH]; [reflexivity|].
  cbn [sort_by foldr]. fold (sort_by key l).
  rewrite insert_by_perm, IH. reflexivity.
Qed.

(** ** Decoding what was encoded *)

Lemma get_u64_count {A : Type} (l : list A) (rest : list byte) :
  countable l = true ->
  get_uint 8 (u64 (Z.of_nat (length l)) ++ rest)
    = Ok (Z.of_nat (length l), rest).
Proof.
  unfold countable, u64. rewrite Z.ltb_lt. intros Hc.
  rewrite get_uint_split. rewrite Z.mod_small; [reflexivity|].
  change (256 ^ Z.of_nat 8) with (2 ^ 64). lia.
Qed.

Lemma get_u64 (z : Z) (rest : list byte) :
  0 <= z < 2 ^ 64 -> get_uint 8 (u64 z ++ rest) = Ok (z, rest).
Proof.
  intros Hz. unfold u64. rewrite get_uint_split.
  rewrite Z.mod_small; [reflexivity|]. exact Hz.
Qed.

Lemma get_fields_app (ts : list ty) (vs : list value) (rest : list byte) :
  Forall (fun t => forall v rest', well_typed t v = true ->
                     dec t (enc t v ++ rest') = Ok (v, rest')) ts ->
  fields_typed (map well_typed ts) vs = true ->
  get_fields (map dec ts) (enc_fields (map enc ts) vs ++ rest) = Ok (vs, rest).
Proof.
  intros Hall. revert vs. induction Hall as [|t ts Ht _ IH]; intros [|v vs];
    cbn; try discriminate; [reflexivity|].
  rewrite andb_true_iff. intros [Hv Hvs].
  rewrite <- app_assoc, (Ht v _ Hv). cbn. rewrite (IH vs Hvs). reflexivity.
Qed.

Lemma Forall_forallb {A : Type} (f : A -> bool) (l : list A) :
  forallb f l = true <-> Forall (fun x => f x = true) l.
Proof. rewrite List.forallb_forall, Forall_forall. setoid_rewrite list_elem_of_In. reflexivity. Qed.

(** Every well-typed value is decoded from its encoding, whatever
    follows it. *)
Lemma dec_enc (T : ty) :
  forall (v : value) (rest : list byte),
    well_typed T v = true -> dec T (enc T v ++ rest) = Ok (v, rest).
Proof.
  induction T as [ | w | w | | | | | | | t IH | t IH | k t IHk IHt
                 | ts IH | ts IH ] using ty_nested_ind;
    intros v rest Hwt; destruct v; try discriminate Hwt;
    cbn [well_typed] in Hwt; cbn [enc dec].
  - change ([bool_byte b] ++ rest) with (bool_byte b :: rest).
    rewrite get_bool_byte. reflexivity.
  - apply in_signed_spec in Hwt. rewrite get_uint_split. cbn [bind].
    rewrite pow256. fold (width_bits w).
    rewrite to_signed_mod by (auto using width_bits_pos). reflexivity.
  - apply in_unsigned_spec in Hwt. rewrite get_uint_split. cbn [bind].
    rewrite pow256. fold (width_bits w). rewrite Z.mod_small by exact Hwt.
    reflexivity.
  - apply in_unsigned_spec in Hwt. rewrite get_uint_split. cbn [bind].
    change (256 ^ Z.of_nat 4) with (2 ^ 32).
    rewrite Z.mod_small by exact Hwt. reflexivity.
  - apply in_unsigned_spec in Hwt. rewrite get_uint_split. cbn [bind].
    change (256 ^ Z.of_nat 8) with (2 ^ 64).
    rewrite Z.mod_small by exact Hwt. reflexivity.
  - rewrite <- app_assoc, get_u64_count by exact Hwt. cbn [bind].
    rewrite Nat2Z.id, get_bytes_app. reflexivity.
  - apply Nat.eqb_eq in Hwt. rewrite <- Hwt, get_bytes_app. reflexivity.
  - apply in_unsigned_spec in Hwt. rewrite get_u64 by exact Hwt. reflexivity.
  - apply andb_true_iff in Hwt as [Hu Hd]. apply Nat.eqb_eq in Hu.
    apply in_unsigned_spec in Hd.
    rewrite <- app_assoc, <- Hu, get_bytes_app. cbn [bind].
    rewrite get_u64 by exact Hd. reflexivity.
  - apply andb_true_iff in Hwt as [Hc Hvs].
    rewrite <- app_assoc, get_u64_count by exact Hc. cbn [bind].
    rewrite Nat2Z.id, (get_many_app (dec t) (enc t)); [reflexivity|].
    apply Forall_forallb in Hvs. eapply Forall_impl; [exact Hvs|].
    cbn. intros x Hx rest'. apply IH, Hx.
  - apply andb_true_iff in Hwt as [Hwt Hs].
    apply andb_true_iff in Hwt as [Hc Hvs].
    rewrite sort_by_ascending by (rewrite map_id; exact Hs).
    rewrite <- app_assoc, get_u64_count by exact Hc. cbn [bind].
    rewrite Nat2Z.id, (get_many_app (dec t) (enc t)).
    + cbn [bind]. unfold wire_order. rewrite Hs. reflexivity.
    + apply Forall_forallb in Hvs. eapply Forall_impl; [exact Hvs|].
      cbn. intros x Hx rest'. apply IH, Hx.
  - apply andb_true_iff in Hwt as [Hwt Hs].
    apply andb_true_iff in Hwt as [Hc Hvs].
    rewrite sort_by_ascending by (rewrite map_map; exact Hs).
    rewrite map_map. cbn [fst snd].
    rewrite <- app_assoc, get_u64_count by exact Hc. cbn [bind].
    rewrite Nat2Z.id,
      (get_many_app (get_pair (dec k) (dec t))
                    (fun kv => enc k (fst kv) ++ enc t (snd kv))).
    + cbn [bind]. unfold wire_order. rewrite Hs. reflexivity.
    + apply Forall_forallb in Hvs. eapply Forall_impl; [exact Hvs|].
      cbn. intros [a b]. cbn. rewrite andb_true_iff. intros [Ha Hb] rest'.
      unfold get_pair. rewrite <- app_assoc, (IHk a _ Ha). cbn.
      rewrite (IHt b _ Hb). reflexivity.
  - rewrite get_fields_app by assumption. reflexivity.
  - apply andb_true_iff in Hwt as [Htag Hwt]. apply Z.ltb_lt in Htag.
    rewrite <- app_assoc, get_u64 by lia. cbn [bind].
    rewrite Nat2Z.id. rewrite !nth_error_map in *.
    destruct (nth_error ts tag) as [t|] eqn:E; cbn in *; [|discriminate].
    rewrite Forall_forall in IH.
    assert (Hin : t ∈ ts) by (apply list_elem_of_In, (nth_error_In ts tag E)).
    rewrite (IH t Hin v rest Hwt). reflexivity.
Qed.

(** ** What the decoder produces is a value of the type *)

(** Inverts a successful sequencing step of a decoder. *)
Tactic Notation "bind_inv" hyp(H) "as" ident(x) ident(r) ident(E) :=
  match type of H with
  | bind ?c _ = Ok _ =>
      destruct c as [[x r]|?] eqn:E; [cbn [bind] in H | discriminate H]
  end.

Lemma get_fields_Ok (ts : list ty) :
  Forall (fun t => forall bs v rest,
            dec t bs = Ok (v, rest) -> well_typed t v = true) ts ->
  forall bs vs rest,
    get_fields (map dec ts) bs = Ok (vs, rest) ->
    fields_typed (map well_typed ts) vs = true.
Proof.
  induction 1 as [|t ts Ht _ IH]; intros bs vs rest; cbn.
  - intros [= <- _]. reflexivity.
  - intros Hg. bind_inv Hg as v r1 E1. bind_inv Hg as vs' r2 E2.
    injection Hg as <- _.
    cbn. rewrite (Ht _ _ _ E1), (IH _ _ _ E2). reflexivity.
Qed.

Lemma countable_length {A : Type} (l : list A) (n : Z) :
  0 <= n < 2 ^ 64 -> length l = Z.to_nat n -> countable l = true.
Proof. intros Hn Hl. unfold countable. rewrite Hl, Z.ltb_lt. lia. Qed.

(** Inverts a passed check of the order on the wire. *)
Lemma wire_order_Ok {A : Type} (duplicate : failure) (ks : list (list byte))
    (k : unit -> result A) (a : A) :
  bind (wire_order duplicate ks) k = Ok a ->
  strictly_ascending ks = true /\ k tt = Ok a.
Proof.
  unfold wire_order. destruct (strictly_ascending ks).
  - cbn. auto.
  - destruct (strictly_ascending (sort_by id ks)); discriminate.
Qed.

Lemma dec_well_typed (T : ty) :
  forall (bs : list byte) (v : value) (rest : list byte),
    dec T bs = Ok (v, rest) -> well_typed T v = true.
Proof.
  induction T as [ | w | w | | | | | | | t IH | t IH | k t IHk IHt
                 | ts IH | ts IH ] using ty_nested_ind;
    intros bs v rest Hd; cbn [dec] in Hd.
  - bind_inv Hd as b r1 E1. injection Hd as <- _. reflexivity.
  - bind_inv Hd as u r1 E1. injection Hd as <- _. cbn [well_typed].
    apply get_uint_Ok in E1 as [_ Hu]. rewrite pow256 in Hu.
    fold (width_bits w) in Hu. apply in_signed_spec, to_signed_range;
      auto using width_bits_pos.
  - bind_inv Hd as u r1 E1. injection Hd as <- _. cbn [well_typed].
    apply get_uint_Ok in E1 as [_ Hu]. rewrite pow256 in Hu.
    apply in_unsigned_spec. exact Hu.
  - bind_inv Hd as u r1 E1. injection Hd as <- _. cbn [well_typed].
    apply get_uint_Ok in E1 as [_ Hu]. apply in_unsigned_spec. exact Hu.
  - bind_inv Hd as u r1 E1. injection Hd as <- _. cbn [well_typed].
    apply get_uint_Ok in E1 as [_ Hu]. apply in_unsigned_spec. exact Hu.
  - bind_inv Hd as n r1 E1. bind_inv Hd as s r2 E2.
    injection Hd as <- _. cbn [well_typed].
    apply get_uint_Ok in E1 as [_ Hu]. apply get_bytes_Ok in E2 as [_ Hl].
    eapply countable_length; [exact Hu | exact Hl].
  - bind_inv Hd as u r1 E1. injection Hd as <- _. cbn [well_typed].
    apply get_bytes_Ok in E1 as [_ Hl]. rewrite Hl. reflexivity.
  - bind_inv Hd as u r1 E1. injection Hd as <- _. cbn [well_typed].
    apply get_uint_Ok in E1 as [_ Hu]. apply in_unsigned_spec. exact Hu.
  - bind_inv Hd as u r1 E1. bind_inv Hd as d r2 E2.
    injection Hd as <- _. cbn [well_typed].
    apply get_bytes_Ok in E1 as [_ Hl]. apply get_uint_Ok in E2 as [_ Hu].
    rewrite Hl. cbn. apply in_unsigned_spec. exact Hu.
  - bind_inv Hd as n r1 E1. bind_inv Hd as vs r2 E2.
    injection Hd as <- _. cbn [well_typed].
    apply get_uint_Ok in E1 as [_ Hu].
    apply (get_many_Ok _ (fun x => well_typed t x = true)) in E2 as [Hl Hall];
      [|exact IH].
    rewrite (countable_length _ _ Hu Hl). apply Forall_forallb, Hall.
  - bind_inv Hd as n r1 E1. bind_inv Hd as vs r2 E2.
    apply wire_order_Ok in Hd as [Hs Hd].
    injection Hd as <- _. cbn [well_typed].
    apply get_uint_Ok in E1 as [_ Hu].
    apply (get_many_Ok _ (fun x => well_typed t x = true)) in E2 as [Hl Hall];
      [|exact IH].
    rewrite Hs, andb_true_r. apply andb_true_iff. split.
    + eapply countable_length; [exact Hu | exact Hl].
    + apply Forall_forallb, Hall.
  - bind_inv Hd as n r1 E1. bind_inv Hd as kvs r2 E2.
    apply wire_order_Ok in Hd as [Hs Hd].
    injection Hd as <- _. cbn [well_typed].
    apply get_uint_Ok in E1 as [_ Hu].
    apply (get_many_Ok _
             (fun kv => well_typed k (fst kv) && well_typed t (snd kv) = true))
      in E2 as [Hl Hall].
    + rewrite Hs, andb_true_r. apply andb_true_iff. split.
      * eapply countable_length; [exact Hu | exact Hl].
      * apply Forall_forallb, Hall.
    + intros bs' [a b] rest'. unfold get_pair. intros Hp.
      bind_inv Hp as a' r3 E3. bind_inv Hp as b' r4 E4.
      injection Hp as <- <- _. cbn.
      rewrite (IHk _ _ _ E3), (IHt _ _ _ E4). reflexivity.
  - bind_inv Hd as vs r1 E1. injection Hd as <- _. cbn [well_typed].
    eapply get_fields_Ok; eassumption.
  - bind_inv Hd as tag r1 E1. apply get_uint_Ok in E1 as [_ Hu].
    rewrite nth_error_map in Hd.
    destruct (nth_error ts (Z.to_nat tag)) as [t|] eqn:Et; cbn in Hd;
      [|discriminate Hd].
    bind_inv Hd as x r2 E2. injection Hd as <- _. cbn [well_typed].
    rewrite nth_error_map, Et. cbn.
    rewrite Forall_forall in IH.
    assert (Hin : t ∈ ts)
      by (apply list_elem_of_In, (nth_error_In ts _ Et)).
    rewrite (IH t Hin _ _ _ E2). rewrite andb_true_r.
    apply Z.ltb_lt. change (256 ^ Z.of_nat 8) with (2 ^ 64) in Hu. lia.
Qed.

(** ** The duplicate check of the decoder *)

(** Not below, in the order of the wire. *)
Definition not_below {A : Type} (key : A -> list byte) (a b : A) : Prop :=
  bytes_ltb (key b) (key a) = false.

Lemma insert_by_sorted {A : Type} (key : A -> list byte) (x : A) (l : list A) :
  StronglySorted (not_below key) l ->
  StronglySorted (not_below key) (insert_by key x l).
Proof.
  induction l as [|y l IH]; intros Hs; cbn.
  - repeat constructor.
  - apply StronglySorted_cons in Hs as [Hall Hs].
    destruct (bytes_ltb (key y) (key x)) eqn:E.
    + apply StronglySorted_cons. split; [|apply IH, Hs].
      rewrite insert_by_perm. constructor; [|exact Hall].
      apply bytes_ltb_asym, E.
    + apply StronglySorted_cons. split.
      * constructor; [exact E|]. eapply Forall_impl; [exact Hall|].
        unfold not_below. intros z Hz.
        destruct (bytes_ltb (key z) (key x)) eqn:E'; [|reflexivity].
        destruct (bytes_ltb (key x) (key y)) eqn:E''.
        -- rewrite (bytes_ltb_trans _ _ _ E' E'') in Hz. discriminate.
        -- rewrite (bytes_ltb_total _ _ E'' E) in E'. congruence.
      * apply StronglySorted_cons. split; assumption.
Qed.

Lemma sort_by_sorted {A : Type} (key : A -> list byte) (l : list A) :
  StronglySorted (not_below key) (sort_by key l).
Proof.
  induction l as [|x l IH]; [constructor|].
  cbn [sort_by foldr]. apply insert_by_sorted, IH.
Qed.

(** On keys in ascending order, the strict check passes exactly when no
    key stands twice. *)
Lemma strictly_ascending_NoDup (ks : list (list byte)) :
  StronglySorted (not_below id) ks ->
  strictly_ascending ks = true <-> NoDup ks.
Proof.
  induction 1 as [|a ks Hs IH Hall]; [split; [constructor|reflexivity]|].
  rewrite NoDup_cons. destruct ks as [|b ks]; cbn [strictly_ascending].
  - split; [intros _; split; [apply not_elem_of_nil | constructor]|reflexivity].
  - rewrite andb_true_iff, IH. clear IH.
    apply Forall_cons in Hall as [Hab Hall]. unfold not_below, id in Hab.
    split.
    + intros [Hlt Hnd]. split; [|exact Hnd].
      intros Hin. apply elem_of_cons in Hin as [->|Hin].
      * rewrite bytes_ltb_irrefl in Hlt. discriminate.
      * rewrite Forall_forall in Hall. specialize (Hall a Hin).
        unfold not_below, id in Hall.
        apply StronglySorted_cons in Hs as [Hb _].
        rewrite Forall_forall in Hb. specialize (Hb a Hin).
        unfold not_below, id in Hb.
        rewrite (bytes_ltb_total _ _ Hb Hab) in Hlt.
        rewrite bytes_ltb_irrefl in Hlt. discriminate.
    + intros [Hnin Hnd]. split; [|exact Hnd].
      destruct (bytes_ltb a b) eqn:E; [reflexivity|].
      exfalso. apply Hnin. rewrite (bytes_ltb_total _ _ E Hab). left.
Qed.

(** On items in any order, the strict check of the ordered items passes
    exactly when no key stands twice. *)
Lemma duplicate_check {A : Type} (key : A -> list byte) (l : list A) :
  strictly_ascending (map key (sort_by key l)) = true <-> NoDup (map key l).
Proof.
  rewrite strictly_ascending_NoDup.
  - rewrite (sort_by_perm key l). reflexivity.
  - pose proof (sort_by_sorted key l) as Hs.
    induction Hs as [|a ks Hs IH Hall]; cbn [map]; constructor;
      [exact IH|].
    apply Forall_fmap. exact Hall.
Qed.

(** What the check of the order on the wire answers: it passes on strictly
    ascending items only, a repeated item is the duplicate failure, and
    distinct items out of order are [NotAscending]. *)
Lemma wire_order_spec (duplicate : failure) (ks : list (list byte)) :
  (wire_order duplicate ks = Ok tt <-> strictly_ascending ks = true) /\
  (~ NoDup ks -> wire_order duplicate ks = Err duplicate) /\
  (NoDup ks -> strictly_ascending ks = false ->
   wire_order duplicate ks = Err NotAscending).
Proof.
  pose proof (duplicate_check id ks) as Hdup. rewrite !map_id in Hdup.
  unfold wire_order. split; [|split].
  - destruct (strictly_ascending ks); [tauto|].
    destruct (strictly_ascending (sort_by id ks)); split; discriminate.
  - intros Hnd. destruct (strictly_ascending ks) eqn:Hs.
    + exfalso. apply Hnd, Hdup.
      rewrite sort_by_ascending by (rewrite map_id; exact Hs). exact Hs.
    + destruct (strictly_ascending (sort_by id ks)); [|reflexivity].
      exfalso. apply Hnd, Hdup. reflexivity.
  - intros Hnd ->. apply Hdup in Hnd. rewrite Hnd. reflexivity.
Qed.

(** ** Encoding what was decoded *)

Lemma le_split_mod (n : nat) (z : Z) :
  le_split n (z mod 256 ^ Z.of_nat n) = le_split n z.
Proof.
  pose proof (split_le_combine (le_split n z)) as H.
  rewrite length_le_split, le_combine_split in H. exact H.
Qed.

(** Two's complement writes back what was read. *)
Lemma le_split_to_signed (w : width) (u : Z) :
  le_split (width_bytes w) (to_signed (width_bits w) u)
    = le_split (width_bytes w) u.
Proof.
  unfold to_signed. destruct (u <? 2 ^ (width_bits w - 1)); [reflexivity|].
  rewrite <- (le_split_mod _ (u - 2 ^ width_bits w)).
  rewrite <- (le_split_mod _ u). f_equal.
  rewrite pow256. fold (width_bits w).
  replace (u - 2 ^ width_bits w) with (u + (-1) * 2 ^ width_bits w) by lia.
  apply Z_mod_plus_full.
Qed.

Lemma get_bool_Ok (bs : list byte) (b : bool) (rest : list byte) :
  get_bool bs = Ok (b, rest) -> bs = bool_byte b :: rest.
Proof.
  unfold get_bool. destruct bs as [|x bs]; [discriminate|].
  destruct (decide (x = Byte.x00)) as [->|_]; [intros [= <- <-]; reflexivity|].
  destruct (decide (x = Byte.x01)) as [->|_]; [intros [= <- <-]; reflexivity|].
  discriminate.
Qed.

Lemma get_many_enc {A : Type} (d : decoder A) (e : A -> list byte) (n : nat) :
  (forall bs x rest, d bs = Ok (x, rest) -> bs = e x ++ rest) ->
  forall bs xs rest,
    get_many d n bs = Ok (xs, rest) ->
    bs = concat (map e xs) ++ rest /\ length xs = n.
Proof.
  intros Hd. induction n as [|n IH]; intros bs xs rest; cbn [get_many].
  - intros [= <- <-]. split; reflexivity.
  - intros Hg. bind_inv Hg as x r1 E1. bind_inv Hg as xs' r2 E2.
    injection Hg as <- <-. apply Hd in E1. apply IH in E2 as [E2 Hl].
    subst bs r1. cbn. rewrite <- app_assoc. split; [reflexivity | lia].
Qed.

Lemma get_fields_enc (ts : list ty) :
  Forall (fun t => forall bs v rest,
            dec t bs = Ok (v, rest) -> bs = enc t v ++ rest) ts ->
  forall bs vs rest,
    get_fields (map dec ts) bs = Ok (vs, rest) ->
    bs = enc_fields (map enc ts) vs ++ rest.
Proof.
  induction 1 as [|t ts Ht _ IH]; intros bs vs rest; cbn [map get_fields].
  - intros [= <- <-]. reflexivity.
  - intros Hg. bind_inv Hg as v r1 E1. bind_inv Hg as vs' r2 E2.
    injection Hg as <- <-. apply Ht in E1. apply IH in E2. subst bs r1.
    cbn. rewrite <- app_assoc. reflexivity.
Qed.

Lemma u64_to_nat (n : Z) : 0 <= n -> u64 (Z.of_nat (Z.to_nat n)) = u64 n.
Proof. intros Hn. rewrite Z2Nat.id by exact Hn. reflexivity. Qed.

(** What a decoder has taken off the front is the encoding of the value it
    hands back. *)
Lemma enc_dec (T : ty) :
  forall (bs : list byte) (v : value) (rest : list byte),
    dec T bs = Ok (v, rest) -> bs = enc T v ++ rest.
Proof.
  induction T as [ | w | w | | | | | | | t IH | t IH | k t IHk IHt
                 | ts IH | ts IH ] using ty_nested_ind;
    intros bs v rest Hd; cbn [dec] in Hd.
  - bind_inv Hd as b r1 E1. injection Hd as <- <-.
    apply get_bool_Ok in E1. exact E1.
  - bind_inv Hd as u r1 E1. injection Hd as <- <-. cbn [enc].
    apply get_uint_Ok in E1 as [-> _]. rewrite le_split_to_signed. reflexivity.
  - bind_inv Hd as u r1 E1. injection Hd as <- <-.
    apply get_uint_Ok in E1 as [-> _]. reflexivity.
  - bind_inv Hd as u r1 E1. injection Hd as <- <-.
    apply get_uint_Ok in E1 as [-> _]. reflexivity.
  - bind_inv Hd as u r1 E1. injection Hd as <- <-.
    apply get_uint_Ok in E1 as [-> _]. reflexivity.
  - bind_inv Hd as n r1 E1. bind_inv Hd as s r2 E2. injection Hd as <- <-.
    apply get_uint_Ok in E1 as [-> Hn]. apply get_bytes_Ok in E2 as [-> Hl].
    cbn [enc]. rewrite Hl, u64_to_nat by lia. rewrite <- app_assoc.
    reflexivity.
  - bind_inv Hd as u r1 E1. injection Hd as <- <-.
    apply get_bytes_Ok in E1 as [-> _]. reflexivity.
  - bind_inv Hd as u r1 E1. injection Hd as <- <-.
    apply get_uint_Ok in E1 as [-> _]. reflexivity.
  - bind_inv Hd as u r1 E1. bind_inv Hd as d r2 E2. injection Hd as <- <-.
    apply get_bytes_Ok in E1 as [-> _]. apply get_uint_Ok in E2 as [-> _].
    cbn [enc]. rewrite <- app_assoc. reflexivity.
  - bind_inv Hd as n r1 E1. bind_inv Hd as vs r2 E2. injection Hd as <- <-.
    apply get_uint_Ok in E1 as [-> Hn].
    apply (get_many_enc (dec t) (enc t) _ IH) in E2 as [-> Hl].
    cbn [enc]. rewrite Hl, u64_to_nat by lia. rewrite <- app_assoc.
    reflexivity.
  - bind_inv Hd as n r1 E1. bind_inv Hd as vs r2 E2.
    apply wire_order_Ok in Hd as [Hs Hd]. injection Hd as <- <-.
    apply get_uint_Ok in E1 as [-> Hn].
    apply (get_many_enc (dec t) (enc t) _ IH) in E2 as [-> Hl].
    cbn [enc]. rewrite sort_by_ascending by (rewrite map_id; exact Hs).
    rewrite Hl, u64_to_nat by lia. rewrite <- app_assoc. reflexivity.
  - bind_inv Hd as n r1 E1. bind_inv Hd as kvs r2 E2.
    apply wire_order_Ok in Hd as [Hs Hd]. injection Hd as <- <-.
    apply get_uint_Ok in E1 as [-> Hn].
    apply (get_many_enc (get_pair (dec k) (dec t))
             (fun kv => enc k (fst kv) ++ enc t (snd kv))) in E2 as [-> Hl].
    + cbn [enc]. rewrite sort_by_ascending by (rewrite map_map; exact Hs).
      rewrite map_map. cbn [fst snd].
      rewrite Hl, u64_to_nat by lia. rewrite <- app_assoc. reflexivity.
    + intros bs' [a b] rest'. unfold get_pair. intros Hp.
      bind_inv Hp as a' r3 E3. bind_inv Hp as b' r4 E4.
      injection Hp as <- <- <-. apply IHk in E3. apply IHt in E4.
      subst bs' r3. cbn [fst snd]. rewrite <- app_assoc. reflexivity.
  - bind_inv Hd as vs r1 E1. injection Hd as <- <-. cbn [enc].
    eapply get_fields_enc; eassumption.
  - bind_inv Hd as tag r1 E1. apply get_uint_Ok in E1 as [-> Hu].
    rewrite nth_error_map in Hd.
    destruct (nth_error ts (Z.to_nat tag)) as [t|] eqn:Et; cbn in Hd;
      [|discriminate Hd].
    bind_inv Hd as x r2 E2. injection Hd as <- <-. cbn [enc].
    rewrite nth_error_map, Et. cbn [option_map].
    rewrite Forall_forall in IH.
    assert (Hin : t ∈ ts)
      by (apply list_elem_of_In, (nth_error_In ts _ Et)).
    apply (IH t Hin) in E2. subst r1.
    rewrite u64_to_nat by lia. rewrite <- app_assoc. reflexivity.
Qed.

(** ** The round trips *)

Lemma decode_Ok (T : ty) (bs : list byte) (v : value) :
  decode T bs = Ok v <-> dec T bs = Ok (v, []).
Proof.
  unfold decode. destruct (dec T bs) as [[v' [|b rest]]|e]; cbn;
    split; intros Hd; try discriminate Hd; congruence.
Qed.

Lemma decode_enc (T : ty) (v : value) :
  well_typed T v = true -> decode T (enc T v) = Ok v.
Proof.
  intros Hwt. apply decode_Ok. rewrite <- (app_nil_r (enc T v)) at 1.
  apply dec_enc. exact Hwt.
Qed.

(** The types of the Lisp test, a tuple and a sequence of UUIDs, with its
    data [(1 2 3 4)]; a UUID is taken as the sixteen bytes of its number. *)
Definition test_type1 : ty := TTuple [TUUID; TUInt W64; TInt W64; TUInt W64].
Definition test_type2 : ty := TSequence TUUID.
Definition test_uuid (n : Z) : list byte := le_split 16 n.
Definition test_data1 : value :=
  VTuple [VUUID (test_uuid 1); VInt 2; VInt 3; VInt 4].
Definition test_data2 : value :=
  VSequence [VUUID (test_uuid 1); VUUID (test_uuid 2);
             VUUID (test_uuid 3); VUUID (test_uuid 4)].

Example test_data_round_trip :
  well_typed test_type1 test_data1 = true /\
  well_typed test_type2 test_data2 = true /\
  decode test_type1 (enc test_type1 test_data1) = Ok test_data1 /\
  decode test_type2 (enc test_type2 test_data2) = Ok test_data2.
Proof. vm_compute. repeat split. Qed.

(** A set whose two elements stand in descending order on the wire, one
    whose element stands twice, and one in the order of the wire. *)
Definition unordered_set_type : ty := TSet (TUInt W8).
Definition unordered_set_bytes : list byte := u64 2 ++ [Byte.x02; Byte.x01].
Definition repeated_set_bytes : list byte := u64 2 ++ [Byte.x01; Byte.x01].
Definition ordered_set_bytes : list byte := u64 2 ++ [Byte.x01; Byte.x02].

Example set_order_on_decode :
  decode unordered_set_type unordered_set_bytes = Err NotAscending /\
  decode unordered_set_type repeated_set_bytes = Err DuplicateElement /\
  decode unordered_set_type ordered_set_bytes = Ok (VSet [VInt 1; VInt 2]) /\
  encode unordered_set_type (VSet [VInt 1; VInt 2]) = Ok ordered_set_bytes.
Proof. vm_compute. repeat split. Qed.

(** C2: a value of type [T] is encoded, and decoding its encoding yields
    it; bytes that decode under [T] yield a value of type [T] whose
    encoding is exactly these bytes. *)
Theorem aux_data_round_trip (T : ty) :
  (forall v, well_typed T v = true ->
     encode T v = Ok (enc T v) /\ decode T (enc T v) = Ok v) /\
  (forall bs v, decode T bs = Ok v ->
     well_typed T v = true /\ encode T v = Ok bs).
Proof.
  split.
  - intros v Hwt. unfold encode. rewrite Hwt. split; [reflexivity|].
    apply decode_enc, Hwt.
  - intros bs v Hd. apply decode_Ok in Hd.
    pose proof (dec_well_typed T bs v [] Hd) as Hwt.
    split; [exact Hwt|]. unfold encode. rewrite Hwt. f_equal.
    apply enc_dec in Hd. rewrite app_nil_r in Hd. symmetry. exact Hd.
Qed.

End AuxData.


(* ===================================================================== *)
(** * gtirb::Module: the other symbol queries and how the mutators       *)
(** * and the queries compose (Module.hpp)                                *)
(* ===================================================================== *)

Module Symbols.

Import Index Mod.

(** [symbol_name_range symbols_by_name()]: from [begin()] to [end()] of
    the by-name index. *)
Definition symbols_by_name (C : Context) (this : nat) : iterator_range :=
  make_iterator_range 0 (length (by_name (Symbols (module_at C this)))).

(** [symbol_addr_range symbols_by_addr()]: from [begin()] to [end()] of
    the by-address index. *)
Definition symbols_by_addr (C : Context) (this : nat) : iterator_range :=
  make_iterator_range 0 (length (by_address (Symbols (module_at C this)))).

(** The symbols of a module, as a set. *)
Definition symbol_set (C : Context) (this : nat) : gset nat :=
  by_pointer (Symbols (module_at C this)).

(** ** What the three ordered queries denote, as lists *)

Lemma name_lookup (C : Context) (this : nat) (N : string) :
  SymbolSet_wf (symbol_at C) (Symbols (module_at C this)) ->
  name_range_elements C this (findSymbols_name C this N) =
    Some (filter (fun p => getName (symbol_at C p) = N)
                 (by_name (Symbols (module_at C this)))).
Proof.
  intros [_ Hns _ _ _ _ _].
  set (l := by_name (Symbols (module_at C this))) in *.
  set (key := name_key (symbol_at C)) in *.
  destruct (range_between_cuts key
              (fun x => key_lt (key x) N) (fun x => negb (key_lt N (key x))) l)
    as [Hel _].
  - apply down_closed_lt.
  - apply down_closed_not_gt.
  - intros x Hx. cbv beta. rewrite (key_lt_asym _ _ Hx). reflexivity.
  - exact Hns.
  - unfold name_range_elements, findSymbols_name, equal_range. cbn [fst snd].
    fold l key. unfold lower_bound, upper_bound. rewrite Hel. f_equal.
    apply list_filter_iff. intros x. cbv beta. rewrite negb_true_iff. split.
    + intros [H1 H2]. symmetry. apply key_lt_total; assumption.
    + unfold key, name_key. intros <-. split; apply key_lt_irrefl.
Qed.

Lemma addr_lookup (C : Context) (this : nat) (X : Z) :
  SymbolSet_wf (symbol_at C) (Symbols (module_at C this)) ->
  addr_range_elements C this (findSymbols_addr C this X) =
    Some (filter (fun p => getAddress (symbol_at C p) = Some X)
                 (by_address (Symbols (module_at C this)))).
Proof.
  intros [Has _ _ _ _ _ _].
  set (l := by_address (Symbols (module_at C this))) in *.
  set (key := address_key (symbol_at C)) in *.
  destruct (range_between_cuts key
              (fun x => key_lt (key x) (Some X))
              (fun x => negb (key_lt (Some X) (key x))) l)
    as [Hel _].
  - apply down_closed_lt.
  - apply down_closed_not_gt.
  - intros x Hx. cbv beta. rewrite (key_lt_asym _ _ Hx). reflexivity.
  - exact Has.
  - unfold addr_range_elements, findSymbols_addr, equal_range. cbn [fst snd].
    fold l key. unfold lower_bound, upper_bound. rewrite Hel. f_equal.
    apply list_filter_iff. intros x. cbv beta. rewrite negb_true_iff. split.
    + intros [H1 H2]. symmetry. apply key_lt_total; assumption.
    + unfold key, address_key. intros ->. split; apply key_lt_irrefl.
Qed.

Lemma range_lookup (C : Context) (this : nat) (Low High : Z) :
  SymbolSet_wf (symbol_at C) (Symbols (module_at C this)) ->
  Low <= High ->
  addr_range_elements C this (findSymbols_range C this Low High) =
    Some (filter (fun p => in_interval Low High
                             (getAddress (symbol_at C p)) = true)
                 (by_address (Symbols (module_at C this)))).
Proof.
  intros [Has _ _ _ _ _ _] Hle.
  set (l := by_address (Symbols (module_at C this))) in *.
  set (key := address_key (symbol_at C)) in *.
  destruct (range_between_cuts key
              (fun x => key_lt (key x) (Some Low))
              (fun x => key_lt (key x) (Some High)) l)
    as [Hel _].
  - apply down_closed_lt.
  - apply down_closed_lt.
  - intros x. cbv beta. destruct (key x) as [a|]; cbn; [|trivial].
    rewrite !Z.ltb_lt. lia.
  - exact Has.
  - unfold addr_range_elements, findSymbols_range. fold l key.
    unfold lower_bound. rewrite Hel. f_equal.
    apply list_filter_iff. intros x. cbv beta. unfold key, address_key.
    destruct (getAddress (symbol_at C x)) as [a|]; cbn.
    + rewrite andb_true_iff, Z.leb_le, Z.ltb_lt, Z.ltb_ge. tauto.
    + split; [intros [_ ?]|]; discriminate.
Qed.

(** ** The queries *)

(** X1: [findSymbols(X)] denotes exactly the symbols of the module whose
    address is [X], each once, never one without an address; it is the
    empty range exactly when there is none. *)
Theorem findSymbols_addr_exact (C : Context) (this : nat) (X : Z) :
  SymbolSet_wf (symbol_at C) (Symbols (module_at C this)) ->
  exists found,
    addr_range_elements C this (findSymbols_addr C this X) = Some found /\
    found ≡ₚ filter (fun p => getAddress (symbol_at C p) = Some X)
                    (symbols C this) /\
    (empty (findSymbols_addr C this X) = true <-> found = []).
Proof.
  intros Hwf. pose proof (by_address_symbols C this Hwf) as Hperm.
  pose proof (addr_lookup C this X Hwf) as Hfound.
  eexists. split; [exact Hfound|]. split; [rewrite Hperm; reflexivity|].
  unfold addr_range_elements, findSymbols_addr, equal_range in *.
  cbn [fst snd] in *.
  set (l := by_address (Symbols (module_at C this))) in *.
  set (b := lower_bound (address_key (symbol_at C)) l (Some X)) in *.
  set (e := upper_bound (address_key (symbol_at C)) l (Some X)) in *.
  assert (Hbe : (b <= e <= length l)%nat).
  { split; [|apply prefix_len_le]. apply prefix_len_mono.
    intros x Hx. cbv beta. rewrite (key_lt_asym _ _ Hx). reflexivity. }
  rewrite elements_of_slice in Hfound by exact Hbe.
  injection Hfound as Hfound. rewrite <- Hfound.
  unfold empty. cbn. rewrite bool_decide_eq_true. split.
  - intros ->. rewrite Nat.sub_diag. reflexivity.
  - intros Hnil. apply (f_equal length) in Hnil.
    rewrite length_take, length_drop in Hnil. cbn in Hnil. lia.
Qed.

Lemma findSymbols_addr_exact_witness :
  SymbolSet_wf (symbol_at scenario) (Symbols (module_at scenario 0%nat)) /\
  (exists found,
     addr_range_elements scenario 0 (findSymbols_addr scenario 0 4096)
       = Some found /\
     found ≡ₚ filter (fun p => getAddress (symbol_at scenario p) = Some 4096)
                     (symbols scenario 0) /\
     (empty (findSymbols_addr scenario 0 4096) = true <-> found = [])).
Proof.
  split; [apply (wf_symbol_sets scenario scenario_wf)|].
  apply (findSymbols_addr_exact scenario 0%nat 4096).
  apply (wf_symbol_sets scenario scenario_wf).
Defined.

Lemma prefix_len_ext {A : Type} (p q : A -> bool) (l : list A) :
  (forall x, p x = q x) -> prefix_len p l = prefix_len q l.
Proof.
  intros Hpq. induction l as [|x l IH]; cbn; [reflexivity|].
  rewrite Hpq, IH. reflexivity.
Qed.

(** Modelled from the spec: addresses are unsigned 64-bit (Addr.hpp is not
    among the sources), so [X + n] on an [Addr], as in the [Low + 1] of this
    header, wraps around at [2^64]. *)
Definition Addr_max : Z := 2 ^ 64 - 1.
Definition Addr_add (X : Z) (n : Z) : Z := (X + n) mod 2 ^ 64.

(** X2: for an address [X] below the greatest one, [findSymbols(X)] is the
    very range [findSymbols(X, X + 1)], whatever the module holds: the
    upper bound of [X] is the lower bound of the next address. *)
Theorem findSymbols_addr_is_unit_range (C : Context) (this : nat) (X : Z) :
  0 <= X < Addr_max ->
  findSymbols_addr C this X = findSymbols_range C this X (Addr_add X 1).
Proof.
  intros HX. unfold Addr_max in HX. unfold Addr_add.
  rewrite Z.mod_small by lia.
  unfold findSymbols_addr, findSymbols_range, equal_range. cbn [fst snd].
  f_equal. unfold upper_bound, lower_bound. apply prefix_len_ext.
  intros p. destruct (address_key (symbol_at C) p) as [a|]; cbn;
    [|reflexivity].
  destruct (Z.ltb_spec X a), (Z.ltb_spec a (X + 1)); cbn; (reflexivity || lia).
Qed.

Lemma findSymbols_addr_is_unit_range_witness :
  0 <= 4096 < Addr_max /\
  findSymbols_addr scenario 0 4096 = findSymbols_range scenario 0 4096 4097.
Proof.
  assert (H : 0 <= 4096 < Addr_max) by (unfold Addr_max; lia).
  split; [exact H|].
  exact (findSymbols_addr_is_unit_range scenario 0%nat 4096 H).
Defined.

(** At the greatest address [X + 1] is [0]: on the scenario
    [findSymbols(X)] is an empty range after the last symbol, while
    [findSymbols(X, X + 1)] begins there and ends before the first address,
    and cannot be traversed. *)
Example unit_range_at_Addr_max :
  Addr_add Addr_max 1 = 0 /\
  findSymbols_addr scenario 0 Addr_max = make_iterator_range 3 3 /\
  findSymbols_range scenario 0 Addr_max (Addr_add Addr_max 1)
    = make_iterator_range 3 1 /\
  addr_range_elements scenario 0
    (findSymbols_range scenario 0 Addr_max (Addr_add Addr_max 1)) = None.
Proof. vm_compute. repeat split. Qed.

(** X3: Adjacent address ranges add up: for [Low <= Mid <= High] the three
    queries denote lists, and what [findSymbols(Low, High)] yields is what
    [findSymbols(Low, Mid)] yields followed by what [findSymbols(Mid, High)]
    yields. *)
Theorem findSymbols_range_split (C : Context) (this : nat) (Low Mid High : Z) :
  Low <= Mid <= High ->
  exists below above,
    addr_range_elements C this (findSymbols_range C this Low Mid)
      = Some below /\
    addr_range_elements C this (findSymbols_range C this Mid High)
      = Some above /\
    addr_range_elements C this (findSymbols_range C this Low High)
      = Some (below ++ above).
Proof.
  intros [Hlm Hmh]. unfold addr_range_elements, findSymbols_range.
  set (l := by_address (Symbols (module_at C this))).
  set (key := address_key (symbol_at C)).
  assert (Hmono : forall a b, a <= b ->
            (lower_bound key l (Some a) <= lower_bound key l (Some b))%nat).
  { intros a b Hab. apply prefix_len_mono. intros x. cbv beta.
    destruct (key x) as [k|]; cbn; [|trivial]. rewrite !Z.ltb_lt. lia. }
  pose proof (Hmono Low Mid Hlm) as H1. pose proof (Hmono Mid High Hmh) as H2.
  pose proof (prefix_len_le (fun x => key_lt (key x) (Some High)) l) as H3.
  fold (lower_bound key l (Some High)) in H3.
  set (b1 := lower_bound key l (Some Low)) in *.
  set (b2 := lower_bound key l (Some Mid)) in *.
  set (b3 := lower_bound key l (Some High)) in *.
  rewrite !elements_of_slice by lia.
  eexists. eexists. split; [reflexivity|]. split; [reflexivity|]. f_equal.
  replace (b3 - b1)%nat with ((b2 - b1) + (b3 - b2))%nat by lia.
  rewrite <- take_take_drop, drop_drop. do 3 f_equal. lia.
Qed.

Lemma findSymbols_range_split_witness :
  4096 <= 8192 <= 8193 /\
  (exists below above,
    addr_range_elements scenario 0 (findSymbols_range scenario 0 4096 8192)
      = Some below /\
    addr_range_elements scenario 0 (findSymbols_range scenario 0 8192 8193)
      = Some above /\
    addr_range_elements scenario 0 (findSymbols_range scenario 0 4096 8193)
      = Some (below ++ above)).
Proof.
  assert (H : 4096 <= 8192 <= 8193) by lia.
  split; [exact H|].
  exact (findSymbols_range_split scenario 0%nat 4096 8192 8193 H).
Defined.


(** ** Traversals in key order *)

Lemma sorted_lookup {K : Type} `{KeyOrder K} (key : nat -> K) (l : list nat)
    (i j p q : nat) :
  sorted key l -> (i <= j)%nat -> l !! i = Some p -> l !! j = Some q ->
  key_lt (key q) (key p) = false.
Proof.
  intros Hs. revert i j. induction Hs as [|x l Hs IH Hall]; intros i j Hij Hi Hj;
    [discriminate|].
  destruct i as [|i], j as [|j]; cbn in Hi, Hj; try lia.
  - injection Hi as <-. injection Hj as <-. apply key_lt_irrefl.
  - injection Hi as <-. rewrite Forall_forall in Hall. apply Hall.
    eapply list_elem_of_lookup_2. exact Hj.
  - apply (IH i j); [lia | assumption | assumption].
Qed.

Lemma whole_range (l : list nat) :
  elements_of l (make_iterator_range 0 (length l)) = Some l.
Proof.
  rewrite elements_of_slice by lia. rewrite drop_0, Nat.sub_0_r.
  rewrite take_ge by lia. reflexivity.
Qed.

(** X4: After any run of the mutators from a fresh arena, [symbols_by_name()]
    yields the symbols of the module, each once, in non-decreasing order
    of their names, and [symbols_by_addr()] yields them in non-decreasing
    order of their addresses, those without an address first. *)
Theorem symbols_traversed_in_order (ops : list operation)
    (named : nat -> string * option Z * option nat) (this : nat) :
  let C := run ops (fresh named) in
  exists byn bya,
    name_range_elements C this (symbols_by_name C this) = Some byn /\
    addr_range_elements C this (symbols_by_addr C this) = Some bya /\
    byn ≡ₚ symbols C this /\ bya ≡ₚ symbols C this /\
    NoDup byn /\ NoDup bya /\
    (forall i j p q, (i <= j)%nat -> byn !! i = Some p -> byn !! j = Some q ->
       Stdlib.Strings.String.ltb (getName (symbol_at C q))
                                 (getName (symbol_at C p)) = false) /\
    (forall i j p q, (i <= j)%nat -> bya !! i = Some p -> bya !! j = Some q ->
       optional_lt (getAddress (symbol_at C q))
                   (getAddress (symbol_at C p)) = false) /\
    (forall i j p q, (i <= j)%nat -> bya !! i = Some p -> bya !! j = Some q ->
       getAddress (symbol_at C q) = None -> getAddress (symbol_at C p) = None).
Proof.
  intros C.
  pose proof (wf_symbol_sets C (run_wf ops _ (fresh_wf named)) this) as Hwf.
  pose proof (by_name_symbols C this Hwf) as Hpn.
  pose proof (by_address_symbols C this Hwf) as Hpa.
  destruct Hwf as [Has Hns Had Hnd _ _ _].
  exists (by_name (Symbols (module_at C this))),
         (by_address (Symbols (module_at C this))).
  assert (Haddr : forall i j p q, (i <= j)%nat ->
            by_address (Symbols (module_at C this)) !! i = Some p ->
            by_address (Symbols (module_at C this)) !! j = Some q ->
            optional_lt (getAddress (symbol_at C q))
                        (getAddress (symbol_at C p)) = false).
  { intros i j p q Hij Hi Hj.
    exact (sorted_lookup (address_key (symbol_at C)) _ i j p q Has Hij Hi Hj). }
  repeat split; try assumption.
  - apply whole_range.
  - apply whole_range.
  - intros i j p q Hij Hi Hj.
    exact (sorted_lookup (name_key (symbol_at C)) _ i j p q Hns Hij Hi Hj).
  - intros i j p q Hij Hi Hj Hq. specialize (Haddr i j p q Hij Hi Hj).
    rewrite Hq in Haddr. destruct (getAddress (symbol_at C p)); [|reflexivity].
    discriminate Haddr.
Qed.

(** On the scenario: name order, and address order with the symbol that
    has no address first. *)
Example scenario_traversals :
  name_range_elements scenario 0 (symbols_by_name scenario 0)
    = Some [1; 0; 2]%nat /\
  addr_range_elements scenario 0 (symbols_by_addr scenario 0)
    = Some [1; 0; 2]%nat.
Proof. vm_compute. split; reflexivity. Qed.

(** ** Queries and back-references *)

(** X5: Whatever a query on a module yields is a symbol of that module: its
    parent is the module, and it has the name, the address, an address of
    the interval, or the referent that was asked for. *)
Theorem findSymbols_yields_own_symbols (C : Context) (this : nat) :
  Context_wf C ->
  (forall N found p,
      name_range_elements C this (findSymbols_name C this N) = Some found ->
      p ∈ found ->
      getModule (symbol_at C p) = Some this /\ getName (symbol_at C p) = N) /\
  (forall X found p,
      addr_range_elements C this (findSymbols_addr C this X) = Some found ->
      p ∈ found ->
      getModule (symbol_at C p) = Some this /\
      getAddress (symbol_at C p) = Some X) /\
  (forall Low High found p,
      addr_range_elements C this (findSymbols_range C this Low High)
        = Some found ->
      p ∈ found ->
      getModule (symbol_at C p) = Some this /\
      exists a, getAddress (symbol_at C p) = Some a /\ Low <= a < High) /\
  (forall Referent p,
      p ∈ findSymbols_referent C this Referent ->
      getModule (symbol_at C p) = Some this /\
      get_symbol_referent (symbol_at C p) = Some Referent).
Proof.
  intros [Hsets Hpar]. pose proof (Hsets this) as Hwf.
  destruct (Hsets this) as [_ _ _ _ Hae Hne Hre].
  split; [|split; [|split]].
  - intros N found p Hf Hp. rewrite (name_lookup C this N Hwf) in Hf.
    injection Hf as <-. apply list_elem_of_filter in Hp as [Hn Hin].
    split; [|exact Hn]. apply Hpar, Hne, Hin.
  - intros X found p Hf Hp. rewrite (addr_lookup C this X Hwf) in Hf.
    injection Hf as <-. apply list_elem_of_filter in Hp as [Hn Hin].
    split; [|exact Hn]. apply Hpar, Hae, Hin.
  - intros Low High found p Hf Hp.
    destruct (Z.le_gt_cases Low High) as [Hle|Hgt].
    + rewrite (range_lookup C this Low High Hwf Hle) in Hf.
      injection Hf as <-. apply list_elem_of_filter in Hp as [Hn Hin].
      split; [apply Hpar, Hae, Hin|].
      unfold in_interval in Hn.
      destruct (getAddress (symbol_at C p)) as [a|]; [|discriminate].
      exists a. split; [reflexivity|].
      apply andb_true_iff in Hn as [H1 H2].
      apply Z.leb_le in H1. apply Z.ltb_lt in H2. lia.
    + exfalso. unfold addr_range_elements, findSymbols_range in Hf.
      set (l := by_address (Symbols (module_at C this))) in *.
      set (key := address_key (symbol_at C)) in *.
      assert (Hmono : (lower_bound key l (Some High)
                       <= lower_bound key l (Some Low))%nat).
      { apply prefix_len_mono. intros x. cbv beta.
        destruct (key x) as [k|]; cbn; [|trivial]. rewrite !Z.ltb_lt. lia. }
      destruct (Nat.eq_dec (lower_bound key l (Some High))
                           (lower_bound key l (Some Low))) as [Heq|Hne'].
      * rewrite Heq in Hf. rewrite elements_of_slice in Hf
          by (split; [lia | apply prefix_len_le]).
        rewrite Nat.sub_diag in Hf. injection Hf as <-.
        apply elem_of_nil in Hp. exact Hp.
      * rewrite elements_of_crossed in Hf by lia. discriminate.
  - intros Referent p Hp. unfold findSymbols_referent in Hp.
    apply elem_of_filter in Hp as [Hr Hin]. rewrite Hre in Hin.
    split; [apply Hpar, Hin | exact Hr].
Qed.

Lemma findSymbols_yields_own_symbols_witness :
  Context_wf scenario /\
  (forall N found p,
      name_range_elements scenario 0 (findSymbols_name scenario 0 N)
        = Some found ->
      p ∈ found ->
      getModule (symbol_at scenario p) = Some 0%nat /\
      getName (symbol_at scenario p) = N).
Proof.
  split; [exact scenario_wf|].
  apply (findSymbols_yields_own_symbols scenario 0%nat scenario_wf).
Defined.


(** ** What the mutators change and what they leave alone *)

(** Leaving the previous module touches that module's symbols and the
    parent of the symbol, nothing else. *)
Lemma detached_frame (S : nat) (C : Context) :
  Context_wf C ->
  let C1 := detached S C in
  (forall M, symbol_set C1 M = symbol_set C M ∖ {[S]}) /\
  (forall p, get_symbol_referent (symbol_at C1 p)
             = get_symbol_referent (symbol_at C p)) /\
  (forall p, p <> S -> symbol_at C1 p = symbol_at C p) /\
  (forall M, ProxyBlocks (module_at C1 M) = ProxyBlocks (module_at C M)) /\
  proxy_block_at C1 = proxy_block_at C.
Proof.
  intros [Hsets Hpar]. cbn zeta. unfold detached, symbol_set.
  assert (Hout : forall M, S ∉ by_pointer (Symbols (module_at C M)) ->
            by_pointer (Symbols (module_at C M)) =
            by_pointer (Symbols (module_at C M)) ∖ {[S]}).
  { intros M Hn. apply set_eq. intros p.
    rewrite elem_of_difference, elem_of_singleton. split; [|tauto].
    intros Hp. split; [exact Hp|]. intros ->. contradiction. }
  destruct (getModule (symbol_at C S)) as [M'|] eqn:E.
  - pose proof E as Hin. apply Hpar in Hin.
    destruct (removeSymbol_found M' S C Hin)
      as (_ & _ & Hsym & _ & _ & Hthis & Hpb & Hmod & Hpx).
    split; [|split; [|split; [|split]]].
    + intros M. destruct (decide (M = M')) as [->|HM].
      * rewrite Hthis. reflexivity.
      * rewrite Hmod by exact HM. apply Hout. intros HinM.
        apply Hpar in HinM. congruence.
    + intros p. destruct (decide (p = S)) as [->|Hp].
      * unfold removeSymbol.
        destruct (decide (S ∈ by_pointer (Symbols (module_at C M'))));
          [|contradiction]. cbn. rewrite fn_lookup_insert. reflexivity.
      * rewrite Hsym by exact Hp. reflexivity.
    + exact Hsym.
    + intros M. destruct (decide (M = M')) as [->|HM].
      * exact Hpb.
      * rewrite Hmod by exact HM. reflexivity.
    + exact Hpx.
  - split; [|auto]. intros M. apply Hout. intros HinM.
    apply Hpar in HinM. congruence.
Qed.

(** Who holds what after [addSymbol(S)], and the keys of every symbol. *)
Lemma addSymbol_membership (C : Context) (this S : nat) :
  Context_wf C ->
  let Ca := snd (addSymbol this S C) in
  symbol_set Ca this = {[S]} ∪ symbol_set C this /\
  (forall M, M <> this -> symbol_set Ca M = symbol_set C M ∖ {[S]}) /\
  (forall p, getName (symbol_at Ca p) = getName (symbol_at C p) /\
             getAddress (symbol_at Ca p) = getAddress (symbol_at C p) /\
             get_symbol_referent (symbol_at Ca p)
               = get_symbol_referent (symbol_at C p)).
Proof.
  intros Hwf. cbn zeta.
  destruct (detached_frame S C Hwf) as (Hset & Href & Hsym & Hpb & Hpx).
  destruct (addSymbol_unfold this S C)
    as (_ & _ & HnS & HaS & Hsym' & Hthis & Hpb' & Hmod & Hpx').
  unfold symbol_set in *.
  split; [|split].
  - rewrite Hthis, emplace_by_pointer, Hset. apply set_eq. intros p.
    rewrite !elem_of_union, elem_of_difference, elem_of_singleton.
    destruct (decide (p = S)); tauto.
  - intros M HM. rewrite (Hmod M HM). apply Hset.
  - intros p. destruct (detached_keys S C p) as [Hn Ha].
    destruct (decide (p = S)) as [->|Hp].
    + rewrite HnS, HaS, Hn, Ha. split; [reflexivity|].
      split; [reflexivity|]. rewrite <- Href.
      unfold addSymbol. fold (detached S C). cbn.
      rewrite fn_lookup_insert. reflexivity.
    + rewrite (Hsym' p Hp), Hn, Ha, Href. auto.
Qed.

(** X6: [addSymbol(S)] moves [S]: afterwards this module holds what it held and
    [S], every other module holds what it held but [S]; no symbol changes
    its name, address or referent, no other symbol changes at all, and the
    proxy blocks are left alone. *)
Theorem addSymbol_moves (C : Context) (this S : nat) :
  Context_wf C ->
  let Ca := snd (addSymbol this S C) in
  symbol_set Ca this = {[S]} ∪ symbol_set C this /\
  (forall M, M <> this -> symbol_set Ca M = symbol_set C M ∖ {[S]}) /\
  (forall p, getName (symbol_at Ca p) = getName (symbol_at C p) /\
             getAddress (symbol_at Ca p) = getAddress (symbol_at C p) /\
             get_symbol_referent (symbol_at Ca p)
               = get_symbol_referent (symbol_at C p)) /\
  (forall p, p <> S -> symbol_at Ca p = symbol_at C p) /\
  (forall M, ProxyBlocks (module_at Ca M) = ProxyBlocks (module_at C M)) /\
  proxy_block_at Ca = proxy_block_at C.
Proof.
  intros Hwf. cbn zeta.
  destruct (addSymbol_membership C this S Hwf) as (H1 & H2 & H3).
  destruct (detached_frame S C Hwf) as (_ & _ & Hsym & Hpb & Hpx).
  destruct (addSymbol_unfold this S C)
    as (_ & _ & _ & _ & Hsym' & _ & Hpb' & Hmod & Hpx').
  split; [exact H1|]. split; [exact H2|]. split; [exact H3|].
  split; [|split].
  - intros p Hp. rewrite (Hsym' p Hp). apply Hsym, Hp.
  - intros M. destruct (decide (M = this)) as [->|HM].
    + rewrite Hpb'. apply Hpb.
    + rewrite (Hmod M HM). apply Hpb.
  - rewrite Hpx'. exact Hpx.
Qed.

Lemma addSymbol_moves_witness :
  Context_wf scenario /\
  symbol_set (snd (addSymbol 1 0 scenario)) 1 = {[0%nat]} ∪ symbol_set scenario 1 /\
  symbol_set (snd (addSymbol 1 0 scenario)) 0 = symbol_set scenario 0 ∖ {[0%nat]}.
Proof.
  split; [exact scenario_wf|].
  destruct (addSymbol_moves scenario 1%nat 0%nat scenario_wf) as (H1 & H2 & _).
  split; [exact H1|]. apply H2. lia.
Defined.

(** X7: The number of symbols of a module goes up by one when [addSymbol] brings
    a symbol the module did not hold, stays when it held it already (no
    second entry), and goes down by one on a successful [removeSymbol]. *)
Theorem symbol_count (C : Context) (this S : nat) :
  Context_wf C ->
  length (symbols (snd (addSymbol this S C)) this) =
    (if decide (S ∈ symbol_set C this)
     then length (symbols C this)
     else Datatypes.S (length (symbols C this))) /\
  (forall Cr, removeSymbol this S C = (true, Cr) ->
     Datatypes.S (length (symbols Cr this)) = length (symbols C this)).
Proof.
  intros Hwf. split.
  - destruct (addSymbol_membership C this S Hwf) as (Hset & _).
    unfold symbols. fold (symbol_set (snd (addSymbol this S C)) this).
    fold (symbol_set C this). rewrite Hset.
    change (length (elements ?X)) with (size X).
    destruct (decide (S ∈ symbol_set C this)) as [Hin|Hn].
    + f_equal. apply set_eq. intros p.
      rewrite elem_of_union, elem_of_singleton. split; [|tauto].
      intros [->|Hp]; assumption.
    + rewrite size_union, size_singleton; [reflexivity|].
      intros p Hp1 Hp2. apply elem_of_singleton in Hp1. subst p. contradiction.
  - intros Cr Hrm.
    destruct (decide (S ∈ by_pointer (Symbols (module_at C this)))) as [Hin|Hn];
      [|rewrite removeSymbol_absent in Hrm by exact Hn; discriminate].
    destruct (removeSymbol_found this S C Hin) as (_ & _ & _ & _ & _ & Hthis & _).
    rewrite Hrm in Hthis. cbn in Hthis. unfold symbols. rewrite Hthis. cbn.
    change (length (elements ?X)) with (size X).
    rewrite size_difference, size_singleton.
    + assert (size (by_pointer (Symbols (module_at C this))) <> 0)%nat.
      { intros H0. apply size_empty_inv in H0. 
        apply (proj1 (elem_of_equiv_empty _) H0 S). exact Hin. }
      lia.
    + intros p Hp. apply elem_of_singleton in Hp. subst p. exact Hin.
Qed.

Lemma symbol_count_witness :
  Context_wf scenario /\
  length (symbols (snd (addSymbol 0 0 scenario)) 0) = length (symbols scenario 0) /\
  length (symbols (snd (addSymbol 1 0 scenario)) 1)
    = Datatypes.S (length (symbols scenario 1)).
Proof.
  split; [exact scenario_wf|].
  split.
  - destruct (symbol_count scenario 0%nat 0%nat scenario_wf) as [H _].
    rewrite H. reflexivity.
  - destruct (symbol_count scenario 1%nat 0%nat scenario_wf) as [H _].
    rewrite H. reflexivity.
Defined.

(** X8: [removeSymbol(S)] returns [true] exactly when the module holds [S]; a
    failed removal leaves the arena as it was, and after any removal a
    second one fails and changes nothing. *)
Theorem removeSymbol_once (C : Context) (this S : nat) :
  (fst (removeSymbol this S C) = true <-> S ∈ symbol_set C this) /\
  (fst (removeSymbol this S C) = false -> snd (removeSymbol this S C) = C) /\
  removeSymbol this S (snd (removeSymbol this S C))
    = (false, snd (removeSymbol this S C)).
Proof.
  unfold symbol_set.
  destruct (decide (S ∈ by_pointer (Symbols (module_at C this)))) as [Hin|Hn].
  - destruct (removeSymbol_found this S C Hin) as (Ht & _ & _ & _ & _ & Hthis & _).
    split; [tauto|]. split; [congruence|].
    apply removeSymbol_absent. rewrite Hthis. cbn.
    rewrite elem_of_difference, elem_of_singleton. tauto.
  - rewrite (removeSymbol_absent this S C Hn). cbn.
    split; [split; [discriminate | contradiction]|]. split; [reflexivity|].
    apply removeSymbol_absent, Hn.
Qed.


(** ** Adding, finding, removing *)

Lemma unlisted_not_yielded (C : Context) (M S : nat) :
  SymbolSet_wf (symbol_at C) (Symbols (module_at C M)) ->
  S ∉ symbol_set C M ->
  forall r found,
    (name_range_elements C M r = Some found -> S ∉ found) /\
    (addr_range_elements C M r = Some found -> S ∉ found).
Proof.
  intros [_ _ _ _ Hae Hne _] Hn r found.
  unfold name_range_elements, addr_range_elements. split; intros Hf Hin.
  - destruct (elements_of_lookup _ r found S Hf Hin) as (i & _ & Hi).
    apply Hn, Hne. eapply list_elem_of_lookup_2. exact Hi.
  - destruct (elements_of_lookup _ r found S Hf Hin) as (i & _ & Hi).
    apply Hn, Hae. eapply list_elem_of_lookup_2. exact Hi.
Qed.

Lemma listed_found (C : Context) (this p : nat) :
  SymbolSet_wf (symbol_at C) (Symbols (module_at C this)) ->
  p ∈ symbol_set C this ->
  (exists found,
     name_range_elements C this
       (findSymbols_name C this (getName (symbol_at C p))) = Some found /\
     p ∈ found) /\
  (forall a, getAddress (symbol_at C p) = Some a ->
     exists found,
       addr_range_elements C this (findSymbols_addr C this a) = Some found /\
       p ∈ found) /\
  (forall a Low High, getAddress (symbol_at C p) = Some a -> Low <= a < High ->
     exists found,
       addr_range_elements C this (findSymbols_range C this Low High)
         = Some found /\
       p ∈ found).
Proof.
  intros Hwf Hin. pose proof Hwf as [_ _ _ _ Hae Hne _].
  split; [|split].
  - eexists. split; [apply (name_lookup C this _ Hwf)|].
    apply list_elem_of_filter. split; [reflexivity | apply Hne, Hin].
  - intros a Ha. eexists. split; [apply (addr_lookup C this a Hwf)|].
    apply list_elem_of_filter. split; [exact Ha | apply Hae, Hin].
  - intros a Low High Ha Hr. eexists.
    split; [apply (range_lookup C this Low High Hwf); lia|].
    apply list_elem_of_filter. split; [|apply Hae, Hin].
    rewrite Ha. cbn. apply andb_true_iff. split; [apply Z.leb_le | apply Z.ltb_lt];
      lia.
Qed.

(** X9: After [addSymbol(S)] the module finds [S] under its name, under its
    address when it has one, and in every address interval that holds this
    address; no range over the indices of another module yields [S]. *)
Theorem addSymbol_then_found (C : Context) (this S : nat) :
  Context_wf C ->
  let Ca := snd (addSymbol this S C) in
  (exists found,
     name_range_elements Ca this
       (findSymbols_name Ca this (getName (symbol_at C S))) = Some found /\
     S ∈ found) /\
  (forall a, getAddress (symbol_at C S) = Some a ->
     exists found,
       addr_range_elements Ca this (findSymbols_addr Ca this a) = Some found /\
       S ∈ found) /\
  (forall a Low High, getAddress (symbol_at C S) = Some a -> Low <= a < High ->
     exists found,
       addr_range_elements Ca this (findSymbols_range Ca this Low High)
         = Some found /\
       S ∈ found) /\
  (forall M r found, M <> this ->
     (name_range_elements Ca M r = Some found -> S ∉ found) /\
     (addr_range_elements Ca M r = Some found -> S ∉ found)).
Proof.
  intros Hwf. cbn zeta.
  pose proof (addSymbol_wf this S C Hwf) as Hwfa.
  destruct (addSymbol_membership C this S Hwf) as (Hset & Hother & Hkeys).
  destruct (Hkeys S) as (Hn & Ha & _).
  assert (Hin : S ∈ symbol_set (snd (addSymbol this S C)) this).
  { rewrite Hset, elem_of_union, elem_of_singleton. tauto. }
  destruct (listed_found _ this S (wf_symbol_sets _ Hwfa this) Hin)
    as (H1 & H2 & H3).
  rewrite Hn in H1. rewrite Ha in H2, H3.
  split; [exact H1|]. split; [exact H2|]. split; [exact H3|].
  intros M r found HM.
  apply (unlisted_not_yielded _ M S (wf_symbol_sets _ Hwfa M)).
  rewrite (Hother M HM), elem_of_difference, elem_of_singleton. tauto.
Qed.

Lemma addSymbol_then_found_witness :
  Context_wf scenario /\
  (exists found,
     name_range_elements (snd (addSymbol 1 0 scenario)) 1
       (findSymbols_name (snd (addSymbol 1 0 scenario)) 1
          (getName (symbol_at scenario 0%nat))) = Some found /\
     0%nat ∈ found).
Proof.
  split; [exact scenario_wf|].
  apply (addSymbol_then_found scenario 1%nat 0%nat scenario_wf).
Defined.

(** X10: After a successful [removeSymbol(S)] no range over the indices of any
    module yields [S], and every other symbol of the module is still
    found under its name. *)
Theorem removeSymbol_then_not_found (C Cr : Context) (this S : nat) :
  Context_wf C ->
  removeSymbol this S C = (true, Cr) ->
  (forall M r found,
     (name_range_elements Cr M r = Some found -> S ∉ found) /\
     (addr_range_elements Cr M r = Some found -> S ∉ found)) /\
  (forall Referent M, S ∉ findSymbols_referent Cr M Referent) /\
  (forall p, p ∈ symbol_set C this -> p <> S ->
     exists found,
       name_range_elements Cr this
         (findSymbols_name Cr this (getName (symbol_at C p))) = Some found /\
       p ∈ found).
Proof.
  intros Hwf Hrm.
  pose proof (removeSymbol_wf this S C Hwf) as Hwfr.
  rewrite Hrm in Hwfr. cbn in Hwfr.
  destruct (decide (S ∈ by_pointer (Symbols (module_at C this)))) as [Hin|Hn];
    [|rewrite removeSymbol_absent in Hrm by exact Hn; discriminate].
  destruct (removeSymbol_found this S C Hin)
    as (_ & HpS & Hsym & _ & _ & Hthis & _ & _ & _).
  rewrite Hrm in HpS, Hsym, Hthis. cbn in HpS, Hsym, Hthis.
  assert (Hgone : forall M, S ∉ symbol_set Cr M).
  { intros M HinM. apply (wf_parents _ Hwfr) in HinM. congruence. }
  split; [|split].
  - intros M r found.
    apply (unlisted_not_yielded Cr M S (wf_symbol_sets _ Hwfr M) (Hgone M)).
  - intros Referent M HinR. unfold findSymbols_referent in HinR.
    apply elem_of_filter in HinR as [_ HinR].
    rewrite (wf_by_referent_elems _ _ (wf_symbol_sets _ Hwfr M)) in HinR.
    exact (Hgone M HinR).
  - intros p Hp HpS'.
    assert (Hp' : p ∈ symbol_set Cr this).
    { unfold symbol_set. rewrite Hthis. cbn.
      rewrite elem_of_difference, elem_of_singleton. tauto. }
    destruct (listed_found Cr this p (wf_symbol_sets _ Hwfr this) Hp')
      as (H1 & _).
    rewrite (Hsym p HpS') in H1. exact H1.
Qed.

Lemma removeSymbol_then_not_found_witness :
  Context_wf scenario /\
  removeSymbol 0 0 scenario = (true, snd (removeSymbol 0 0 scenario)) /\
  (forall M r found,
     (name_range_elements (snd (removeSymbol 0 0 scenario)) M r = Some found ->
      0%nat ∉ found) /\
     (addr_range_elements (snd (removeSymbol 0 0 scenario)) M r = Some found ->
      0%nat ∉ found)).
Proof.
  assert (H : removeSymbol 0 0 scenario = (true, snd (removeSymbol 0 0 scenario))).
  { apply injective_projections; [vm_compute; reflexivity | reflexivity]. }
  split; [exact scenario_wf|]. split; [exact H|].
  apply (removeSymbol_then_not_found scenario _ 0%nat 0%nat scenario_wf H).
Defined.

Lemma filter_ordered_insert {K : Type} `{KeyOrder K} (key : nat -> K)
    (x : nat) (l : list nat) :
  x ∉ l -> filter (fun p => p <> x) (ordered_insert key x l) = l.
Proof.
  assert (Hkeep : forall l' : list nat,
            x ∉ l' -> filter (fun p => p <> x) l' = l').
  { induction l' as [|z l' IHl]; intros Hn; [reflexivity|].
    apply not_elem_of_cons in Hn as [Hxz Hn].
    rewrite filter_cons_True by congruence. f_equal. apply IHl, Hn. }
  induction l as [|y l IH]; intros Hn; cbn [ordered_insert].
  - rewrite filter_cons_False by tauto. reflexivity.
  - destruct (key_lt (key x) (key y)).
    + rewrite filter_cons_False by tauto. apply Hkeep, Hn.
    + apply not_elem_of_cons in Hn as [Hxy Hn].
      rewrite filter_cons_True by congruence. f_equal. apply IH, Hn.
Qed.

Lemma Module_eq (a b : Module_) :
  ProxyBlocks a = ProxyBlocks b -> Symbols a = Symbols b -> a = b.
Proof. destruct a, b. cbn. intros -> ->. reflexivity. Qed.

(** X11: Adding a symbol that has no parent and removing it again restores the
    arena: every symbol and every module is as before, with every index in
    its previous order. *)
Theorem addSymbol_removeSymbol_restores (C : Context) (this S : nat) :
  Context_wf C ->
  getModule (symbol_at C S) = None ->
  SymObserver (symbol_at C S) = None ->
  let r := removeSymbol this S (snd (addSymbol this S C)) in
  fst r = true /\
  (forall p, symbol_at (snd r) p = symbol_at C p) /\
  (forall M, module_at (snd r) M = module_at C M) /\
  proxy_block_at (snd r) = proxy_block_at C.
Proof.
  intros Hwf Hpar Hobs. cbn zeta.
  pose proof (addSymbol_wf this S C Hwf) as Hwfa.
  destruct (addSymbol_unfold this S C)
    as (_ & HpS & _ & _ & Hsym & Hthis & Hpb & Hmod & Hpx).
  assert (Hdet : detached S C = C) by (unfold detached; rewrite Hpar; reflexivity).
  rewrite Hdet in Hsym, Hthis, Hpb, Hmod, Hpx.
  set (Ca := snd (addSymbol this S C)) in *.
  assert (Hin : S ∈ by_pointer (Symbols (module_at Ca this)))
    by (apply (wf_parents _ Hwfa), HpS).
  destruct (removeSymbol_found this S Ca Hin)
    as (Ht & _ & Hsym' & _ & _ & Hthis' & Hpb' & Hmod' & Hpx').
  assert (Hn : S ∉ by_pointer (Symbols (module_at C this))).
  { intros HinC. apply (wf_parents _ Hwf) in HinC. congruence. }
  destruct (wf_symbol_sets _ Hwf this) as [_ _ _ _ Hae Hne Hre].
  split; [exact Ht|]. split; [|split].
  - intros p. destruct (decide (p = S)) as [->|Hp].
    + unfold removeSymbol.
      destruct (decide (S ∈ by_pointer (Symbols (module_at Ca this))));
        [|contradiction].
      cbn. rewrite fn_lookup_insert. unfold Ca, addSymbol.
      rewrite Hpar. cbn. rewrite fn_lookup_insert.
      destruct (symbol_at C S) as [n a rf pa ob]. cbn in *. subst pa ob.
      reflexivity.
    + rewrite (Hsym' p Hp). apply Hsym, Hp.
  - intros M. destruct (decide (M = this)) as [->|HM].
    + apply Module_eq; [rewrite Hpb'; exact Hpb|].
      rewrite Hthis', Hthis. unfold emplace.
      destruct (decide (S ∈ by_pointer (Symbols (module_at C this))));
        [contradiction|].
      unfold erase. cbn.
      destruct (Symbols (module_at C this)) as [ba bn bp br] eqn:E.
      cbn in *. f_equal.
      * apply filter_ordered_insert. rewrite Hae. exact Hn.
      * apply filter_ordered_insert. rewrite Hne. exact Hn.
      * apply set_eq. intros p.
        rewrite elem_of_difference, elem_of_union, elem_of_singleton.
        split; [tauto|]. intros Hp. split; [tauto|]. intros ->. contradiction.
      * subst br. apply set_eq. intros p.
        rewrite elem_of_difference, elem_of_union, elem_of_singleton.
        split; [tauto|]. intros Hp. split; [tauto|]. intros ->. contradiction.
    + rewrite (Hmod' M HM). apply Hmod, HM.
  - rewrite Hpx'. exact Hpx.
Qed.

Lemma addSymbol_removeSymbol_restores_witness :
  Context_wf (fresh scenario_symbols) /\
  getModule (symbol_at (fresh scenario_symbols) 0%nat) = None /\
  SymObserver (symbol_at (fresh scenario_symbols) 0%nat) = None /\
  fst (removeSymbol 0 0 (snd (addSymbol 0 0 (fresh scenario_symbols)))) = true.
Proof.
  split; [apply fresh_wf|]. split; [reflexivity|]. split; [reflexivity|].
  apply (addSymbol_removeSymbol_restores (fresh scenario_symbols) 0%nat 0%nat
           (fresh_wf scenario_symbols) eq_refl eq_refl).
Defined.

End Symbols.


(** * Resizing a code block repeatedly

    [CodeBlock::setSize] keeps no history of its own; what a sequence of
    calls leaves behind is the last size, and what the observer is told
    is the chain of changes. *)

Module Resize.

Import Block.

Definition change_of (e : event) : Z * Z :=
  let 'SizeChange _ _ OldSize NewSize := e in (OldSize, NewSize).
Definition notified (e : event) : ObserverPtr :=
  let 'SizeChange Obs _ _ _ := e in Obs.
Definition block_of (e : event) : CodeBlock :=
  let 'SizeChange _ B _ _ := e in B.

Section Resize.

Variable World : Type.
Variable sizeChange :
  ObserverPtr -> CodeBlock -> Z -> Z -> World -> ChangeStatus * World.
Variable NDEBUG : bool.

(** A caller that does [B->setSize(S)] for each [S] of [sizes] in turn;
    a failed assertion aborts the whole run. *)
Fixpoint setSizes (this : CodeBlock) (sizes : list Z) (w : World)
    : option (CodeBlock * World * list event) :=
  match sizes with
  | [] => Some (this, w, [])
  | S0 :: rest =>
      match setSize World sizeChange NDEBUG this S0 w with
      | None => None
      | Some (this1, w1, calls1) =>
          match setSizes this1 rest w1 with
          | None => None
          | Some (this2, w2, calls2) => Some (this2, w2, calls1 ++ calls2)
          end
      end
  end.

(** No assertion can fail: assertions are compiled out, or no observer
    ever answers [Rejected]. *)
Definition never_aborts : Prop :=
  NDEBUG = true \/
  forall Obs B OldSize NewSize w,
    fst (sizeChange Obs B OldSize NewSize w) <> Rejected.

Lemma setSize_step (this : CodeBlock) (S0 : Z) (w : World) :
  never_aborts ->
  exists w1 calls1,
    setSize World sizeChange NDEBUG this S0 w
      = Some (with_Size this S0, w1, calls1) /\
    match Observer this with
    | None => calls1 = [] /\ w1 = w
    | Some Obs =>
        calls1 = [SizeChange Obs (with_Size this S0) (Size this) S0] /\
        w1 = snd (sizeChange Obs (with_Size this S0) (Size this) S0 w)
    end.
Proof.
  intros Hok. unfold setSize, assert.
  destruct (Observer this) as [Obs|].
  - cbn [with_Size Size].
    destruct (sizeChange Obs (with_Size this S0) (Size this) S0 w)
      as [Status w1] eqn:E.
    assert (Hgo : NDEBUG || negb (bool_decide (Status = Rejected)) = true).
    { destruct Hok as [->|Hnr]; [reflexivity|].
      apply orb_true_iff. right. apply negb_true_iff, bool_decide_eq_false.
      specialize (Hnr Obs (with_Size this S0) (Size this) S0 w).
      rewrite E in Hnr. exact Hnr. }
    rewrite Hgo. eexists _, _. split; [reflexivity|]. split; reflexivity.
  - eexists _, _. split; [reflexivity|]. split; reflexivity.
Qed.

Lemma last_cons_default {A : Type} (a d : A) (l : list A) :
  List.last (a :: l) d = List.last l a.
Proof.
  assert (Hind : forall (l' : list A) (b d1 d2 : A),
            List.last (b :: l') d1 = List.last (b :: l') d2).
  { induction l' as [|c l' IH]; intros b d1 d2; [reflexivity|].
    change (List.last (c :: l') d1 = List.last (c :: l') d2). apply IH. }
  destruct l as [|b l]; [reflexivity|].
  change (List.last (b :: l) d = List.last (b :: l) a). apply Hind.
Qed.

(** X12: A run of [setSize] calls that cannot abort returns; the block then has
    the last size asked for and its parent, observer and decode mode are
    untouched.  Without an observer nothing else happens.  With one, it is
    told once per call, also when the size asked for is the current one;
    each notification carries the size before and after that call, so each
    old size is the previous new size, and the block it is given already
    holds the new size. *)
Theorem setSizes_history (this : CodeBlock) (sizes : list Z) (w : World) :
  never_aborts ->
  exists this' w' calls,
    setSizes this sizes w = Some (this', w', calls) /\
    getSize this' = List.last sizes (getSize this) /\
    Parent this' = Parent this /\
    Observer this' = Observer this /\
    DMode this' = DMode this /\
    match Observer this with
    | None => calls = [] /\ w' = w
    | Some Obs =>
        map change_of calls = zip (getSize this :: sizes) sizes /\
        Forall (fun e => notified e = Obs /\
                         getSize (block_of e) = snd (change_of e)) calls
    end.
Proof.
  intros Hok. revert this w.
  induction sizes as [|S0 rest IH]; intros this w.
  - exists this, w, []. cbn. repeat split.
    destruct (Observer this); split; constructor.
  - destruct (setSize_step this S0 w Hok) as (w1 & calls1 & Hs & Hone).
    destruct (IH (with_Size this S0) w1)
      as (this2 & w2 & calls2 & Hrun & Hsz & Hp & Ho & Hd & Hrest).
    exists this2, w2, (calls1 ++ calls2).
    cbn [setSizes]. rewrite Hs, Hrun.
    split; [reflexivity|].
    split; [rewrite Hsz, last_cons_default; reflexivity|].
    split; [exact Hp|]. split; [exact Ho|]. split; [exact Hd|].
    cbn [with_Size Observer] in Hrest.
    destruct (Observer this) as [Obs|].
    + destruct Hone as [-> ->]. destruct Hrest as [Hmap Hall].
      split.
      * cbn [app map change_of]. rewrite Hmap. reflexivity.
      * cbn [app]. constructor; [|exact Hall]. split; reflexivity.
    + destruct Hone as [-> ->]. exact Hrest.
Qed.

End Resize.

(** An observer that accepts everything and keeps a log of what it saw. *)
Definition logging_observer (Obs : ObserverPtr) (B : CodeBlock)
    (OldSize NewSize : Z) (w : list (Z * Z)) : ChangeStatus * list (Z * Z) :=
  (Accepted, w ++ [(OldSize, NewSize)]).

Definition observed_block : CodeBlock :=
  {| Parent := Some 0%nat; Observer := Some 1%nat; Size := 4;
     DMode := Default |}.

Lemma setSizes_history_witness :
  never_aborts (list (Z * Z)) logging_observer false /\
  exists this' w' calls,
    setSizes (list (Z * Z)) logging_observer false observed_block [8; 8; 2] []
      = Some (this', w', calls) /\
    getSize this' = 2 /\
    map change_of calls = [(4, 8); (8, 8); (8, 2)].
Proof.
  assert (Hok : never_aborts (list (Z * Z)) logging_observer false).
  { right. intros Obs B OldSize NewSize w. cbn. discriminate. }
  split; [exact Hok|].
  destruct (setSizes_history (list (Z * Z)) logging_observer false
              observed_block [8; 8; 2] [] Hok)
    as (this' & w' & calls & Hrun & Hsz & _ & _ & _ & Hmap & _).
  exists this', w', calls. split; [exact Hrun|].
  split; [exact Hsz | exact Hmap].
Defined.

End Resize.


(** * Renaming a module: [Module::setName] *)

Module Naming.

Abbreviation IRPtr := nat (only parsing).
Abbreviation ModuleObserverPtr := nat (only parsing).

(** The data members of [Module] that [setName] and [setParent] touch, and
    the two containers of the symbol queries.  A null pointer is [None]. *)
Record Module_ : Type := mkModule {
  Parent : option IRPtr;
  Observer : option ModuleObserverPtr;
  Name : string;
  ProxyBlocks : Mod.ProxyBlockSet;
  Symbols : Mod.SymbolSet
}.

(** [const std::string& getName() const] *)
Definition getName (this : Module_) : string := Name this.

Definition with_Name (this : Module_) (X : string) : Module_ :=
  {| Parent := Parent this; Observer := Observer this; Name := X;
     ProxyBlocks := ProxyBlocks this; Symbols := Symbols this |}.

(** [void setParent(IR* I, ModuleObserver* O)] *)
Definition setParent (this : Module_) (I : option IRPtr)
    (Obs : option ModuleObserverPtr) : Module_ :=
  {| Parent := I; Observer := Obs; Name := Name this;
     ProxyBlocks := ProxyBlocks this; Symbols := Symbols this |}.

(** The calls made on the observer, each with the module as it is at the
    time of the call. *)
Inductive event : Type :=
| NameChange (Obs : ModuleObserverPtr) (M : Module_) (OldName NewName : string).

Section SetName.

(** What the observer owns (the by-name index of the modules of the IR). *)
Variable World : Type.

(** [virtual ChangeStatus ModuleObserver::nameChange(Module* M, const
    std::string& OldName, const std::string& NewName)]: pure virtual in
    this header. *)
Variable nameChange :
  ModuleObserverPtr -> Module_ -> string -> string -> World
  -> ChangeStatus * World.

Variable NDEBUG : bool.

Definition assert (c : bool) : bool := NDEBUG || c.

(** [inline void Module::setName(const std::string& X)].  [None] is the
    abort of a failed assertion. *)
Definition setName (this : Module_) (X : string) (w : World)
    : option (Module_ * World * list event) :=
  match Observer this with
  | Some Obs =>
      (* std::string OldName = X; std::swap(Name, OldName); *)
      let this' := with_Name this X in
      let OldName := Name this in
      let '(status, w') := nameChange Obs this' OldName (Name this') w in
      if assert (negb (bool_decide (status = Rejected)))
      then Some (this', w', [NameChange Obs this' OldName (Name this')])
      else None
  | None => Some (with_Name this X, w, [])
  end.

Lemma with_Name_back (this : Module_) (X : string) :
  with_Name (with_Name this X) (Name this) = this.
Proof. destruct this. reflexivity. Qed.

Lemma setName_inv (this this' : Module_) (X : string) (w w' : World)
    (calls : list event) :
  setName this X w = Some (this', w', calls) ->
  this' = with_Name this X /\
  match Observer this with
  | None => calls = [] /\ w' = w
  | Some Obs =>
      calls = [NameChange Obs (with_Name this X) (Name this) X] /\
      w' = snd (nameChange Obs (with_Name this X) (Name this) X w) /\
      (NDEBUG = true \/
       fst (nameChange Obs (with_Name this X) (Name this) X w) <> Rejected)
  end.
Proof.
  unfold setName, assert. destruct (Observer this) as [Obs|].
  - cbn [with_Name Name].
    destruct (nameChange Obs (with_Name this X) (Name this) X w)
      as [status w1] eqn:E.
    destruct NDEBUG; cbn.
    + intros [= <- <- <-]. auto.
    + case_bool_decide as Hs; cbn; [discriminate|].
      intros [= <- <- <-]. auto.
  - intros [= <- <- <-]. auto.
Qed.

(** X13: Whenever [setName(X)] returns, [getName()] is [X] and the parent, the
    observer, the proxy blocks and the symbols of the module are what they
    were.  Without an observer nobody is told.  With one it is told once,
    with the previous name and [X], and sees the module that already has
    the new name; this also happens when [X] is the current name.  The only
    run that does not return is the failed assertion on a rejecting
    observer. *)
Theorem setName_commits_then_notifies (this : Module_) (X : string)
    (w : World) :
  match setName this X w with
  | Some (this', w', calls) =>
      getName this' = X /\
      Parent this' = Parent this /\
      Observer this' = Observer this /\
      ProxyBlocks this' = ProxyBlocks this /\
      Symbols this' = Symbols this /\
      match Observer this with
      | None => calls = [] /\ w' = w
      | Some Obs =>
          calls = [NameChange Obs this' (getName this) X] /\
          w' = snd (nameChange Obs this' (getName this) X w)
      end
  | None =>
      NDEBUG = false /\
      exists Obs, Observer this = Some Obs /\
        fst (nameChange Obs (with_Name this X) (Name this) X w) = Rejected
  end.
Proof.
  destruct (setName this X w) as [[[this' w'] calls]|] eqn:E.
  - apply setName_inv in E as [-> Hc]. cbn [with_Name getName Name Parent
      Observer ProxyBlocks Symbols]. repeat (split; [reflexivity|]).
    destruct (Observer this) as [Obs|]; [|exact Hc].
    destruct Hc as (-> & -> & _). split; reflexivity.
  - unfold setName, assert in E. destruct (Observer this) as [Obs|];
      [|discriminate].
    cbn [with_Name Name] in E.
    destruct (nameChange Obs (with_Name this X) (Name this) X w)
      as [status w1] eqn:Hs.
    destruct NDEBUG; [discriminate|]. cbn in E.
    case_bool_decide as Hr; [|discriminate].
    split; [reflexivity|]. exists Obs. split; [reflexivity|].
    rewrite Hs. exact Hr.
Qed.

(** X14: Renaming a module and then giving it its previous name back restores
    the module; an observer sees the two changes, the second undoing the
    first. *)
Theorem setName_back (this this1 this2 : Module_) (X : string)
    (w w1 w2 : World) (calls1 calls2 : list event) :
  setName this X w = Some (this1, w1, calls1) ->
  setName this1 (getName this) w1 = Some (this2, w2, calls2) ->
  this2 = this /\
  match Observer this with
  | None => calls1 ++ calls2 = [] /\ w2 = w
  | Some Obs =>
      calls1 ++ calls2 =
        [NameChange Obs this1 (getName this) X;
         NameChange Obs this X (getName this)]
  end.
Proof.
  intros H1 H2.
  apply setName_inv in H1 as [-> Hc1].
  apply setName_inv in H2 as [-> Hc2].
  unfold getName in *. rewrite with_Name_back in *.
  split; [reflexivity|].
  cbn [with_Name Observer Name] in Hc2.
  destruct (Observer this) as [Obs|].
  - destruct Hc1 as (-> & _). destruct Hc2 as (-> & _). reflexivity.
  - destruct Hc1 as (-> & ->). destruct Hc2 as (-> & ->). auto.
Qed.

End SetName.

(** An observer that accepts every change and logs it. *)
Definition logging_observer (Obs : ModuleObserverPtr) (M : Module_)
    (OldName NewName : string) (w : list (string * string))
    : ChangeStatus * list (string * string) :=
  (Accepted, w ++ [(OldName, NewName)]).

Definition observed_module : Module_ :=
  {| Parent := Some 0%nat; Observer := Some 0%nat; Name := "a.out";
     ProxyBlocks := ∅; Symbols := Mod.empty_SymbolSet |}.

Lemma setName_back_witness :
  let r1 := setName (list (string * string)) logging_observer false
              observed_module "b.out" [] in
  let r2 := setName (list (string * string)) logging_observer false
              (with_Name observed_module "b.out") "a.out"
              [("a.out", "b.out")] in
  r1 = Some (with_Name observed_module "b.out", [("a.out", "b.out")],
             [NameChange 0 (with_Name observed_module "b.out") "a.out" "b.out"]) /\
  r2 = Some (observed_module, [("a.out", "b.out"); ("b.out", "a.out")],
             [NameChange 0 observed_module "b.out" "a.out"]) /\
  observed_module = observed_module.
Proof.
  cbv zeta.
  assert (H1 : setName (list (string * string)) logging_observer false
                 observed_module "b.out" []
               = Some (with_Name observed_module "b.out", [("a.out", "b.out")],
                       [NameChange 0 (with_Name observed_module "b.out")
                          "a.out" "b.out"])) by reflexivity.
  assert (H2 : setName (list (string * string)) logging_observer false
                 (with_Name observed_module "b.out") (getName observed_module)
                 [("a.out", "b.out")]
               = Some (observed_module,
                       [("a.out", "b.out"); ("b.out", "a.out")],
                       [NameChange 0 observed_module "b.out" "a.out"]))
    by reflexivity.
  split; [exact H1|]. split; [exact H2|].
  exact (proj1 (setName_back (list (string * string)) logging_observer false
                  _ _ _ _ _ _ _ _ _ H1 H2)).
Defined.

End Naming.


(** * Deep equality of variants: [Variant11.equals] *)

Module VariantEquals.

Import Variant.

#[local] Arguments Returned {A} a.
#[local] Arguments NullPointerException {A}.
#[local] Arguments null {Obj}.
#[local] Arguments Ref {Obj} x.
#[local] Arguments o {Obj} _.
#[local] Arguments index {Obj} _.
#[local] Arguments construct {Obj} k _.
#[local] Arguments setter {Obj} k _ _.

Section Equals.

Variable Obj : Type.

(** The [equals] method of the stored objects, whatever their classes
    make of it: it is given the argument reference, and returns or throws. *)
Variable Obj_equals : Obj -> reference Obj -> outcome bool.

(** What [equals] may be handed: the receiver itself, another variant,
    an object of another class, or [null]. *)
Inductive argument : Type :=
| This
| Other (asVariant : Variant11 Obj)
| Foreign
| Null.

(** [public boolean equals(Object other)] *)
Definition equals (this : Variant11 Obj) (other : argument) : outcome bool :=
  match other with
  | This => Returned true
  | Foreign | Null => Returned false
  | Other asVariant =>
      if index this =? index asVariant
      then match o this with
           | null => NullPointerException
           | Ref x => Obj_equals x (o asVariant)
           end
      else Returned false
  end.

(** The variant holds an object, not [null]. *)
Definition populated (v : Variant11 Obj) : Prop := exists x, o v = Ref x.

Lemma equals_setter (j k : field) (a b : Variant11 Obj)
    (r s : reference Obj) :
  equals (setter j a r) (Other (setter k b s)) =
  if field_eqb j k
  then match r with
       | null => NullPointerException
       | Ref x => Obj_equals x s
       end
  else Returned false.
Proof.
  rewrite !setter_construct. destruct j, k; reflexivity.
Qed.

(** X15: [equals] looks at the fields first: two variants set through different
    setters are unequal whatever they hold, even the same object, and no
    [equals] of a stored object is run; set through the same setter they
    compare as their objects do.  A receiver that stores [null] throws as
    soon as the fields agree, also against a variant that stores [null] in
    the same field.  The receiver itself is equal; [null] and objects of
    other classes are not. *)
Theorem equals_fields_then_objects (j k : field) (a b : Variant11 Obj)
    (x : Obj) (s : reference Obj) :
  equals (setter j a (Ref x)) (Other (setter k b s)) =
    (if field_eqb j k then Obj_equals x s else Returned false) /\
  equals (setter j a null) (Other (setter k b s)) =
    (if field_eqb j k then NullPointerException else Returned false) /\
  equals a This = Returned true /\
  equals a Foreign = Returned false /\
  equals a Null = Returned false.
Proof.
  rewrite !equals_setter. repeat split.
Qed.

(** X16: When [equals] of the stored objects is reflexive, symmetric and
    transitive, so is [equals] of the variants that hold an object. *)
Theorem equals_equivalence (a b c : Variant11 Obj) :
  (forall x, Obj_equals x (Ref x) = Returned true) ->
  (forall x y, Obj_equals x (Ref y) = Obj_equals y (Ref x)) ->
  (forall x y z, Obj_equals x (Ref y) = Returned true ->
                 Obj_equals y (Ref z) = Returned true ->
                 Obj_equals x (Ref z) = Returned true) ->
  populated a -> populated b -> populated c ->
  equals a (Other a) = Returned true /\
  equals a (Other b) = equals b (Other a) /\
  (equals a (Other b) = Returned true ->
   equals b (Other c) = Returned true ->
   equals a (Other c) = Returned true).
Proof.
  intros Hrefl Hsym Htrans [x Hx] [y Hy] [z Hz].
  unfold equals. rewrite Hx, Hy, Hz.
  split; [rewrite Z.eqb_refl; apply Hrefl|]. split.
  - rewrite (Z.eqb_sym (index b) (index a)).
    destruct (index a =? index b); [apply Hsym | reflexivity].
  - destruct (index a =? index b) eqn:Eab; [|discriminate].
    destruct (index b =? index c) eqn:Ebc; [|discriminate].
    apply Z.eqb_eq in Eab, Ebc.
    replace (index a =? index c) with true
      by (symmetry; apply Z.eqb_eq; congruence).
    apply Htrans.
Qed.

End Equals.

(** Boxed integers: [Long.equals]. *)
Definition Long_equals (x : Z) (r : reference Z) : outcome bool :=
  match r with
  | null => Returned false
  | Ref y => Returned (x =? y)
  end.

Lemma equals_equivalence_witness :
  populated Z (construct F3 (Ref 7)) /\
  equals Z Long_equals (construct F3 (Ref 7)) (Other Z (construct F3 (Ref 7)))
    = Returned true.
Proof.
  assert (Hp : populated Z (construct F3 (Ref 7))) by (exists 7; reflexivity).
  split; [exact Hp|].
  refine (proj1 (equals_equivalence Z Long_equals _ _ _ _ _ _ Hp Hp Hp)).
  - intros x. cbn. rewrite Z.eqb_refl. reflexivity.
  - intros x y. cbn. rewrite Z.eqb_sym. reflexivity.
  - intros x y z. cbn. intros [= Hxy] [= Hyz].
    apply Z.eqb_eq in Hxy, Hyz. subst. rewrite Z.eqb_refl. reflexivity.
Defined.

End VariantEquals.
